(** * Speed-reader presentation engine: chunking, pacing and the pair cursor

    A shallow embedding of the reading logic of [src/App.jsx]: the hook
    [useSpeedReader] (linear cursor, chunk text, autoplay tick) and the
    stateful part of [ReadingView] (pair cursor, training oscillator,
    keyboard navigation).

    Conventions.
    - A word is a [string]; only its [length] and its concatenation matter.
    - Indices, lengths and the character limit are natural numbers: every
      index the program stores is the result of a [Math.max(0, ...)] clamp
      or of an increment from [0].  A subtraction of the source is written
      with the truncated subtraction of [nat] only where the source wraps
      it in [Math.max(0, ...)] or where it cannot go below zero.
    - The gap width, the training direction and the rate are integers.
    - [words[i]] under a guard [i < words.length] is [nth i words ""];
      an unguarded read is an [option] ([None]: the property access on
      [undefined] throws).
    - A [while] loop is a structurally recursive function on a fuel that
      bounds its number of iterations; each such loop comes with a lemma
      showing that the fuel it is given is never exhausted early. *)

From Stdlib Require Import List Arith ZArith QArith Qround String Bool Lia Lqa.
Import ListNotations.

Local Open Scope string_scope.
Local Open Scope list_scope.
Local Open Scope Z_scope.
Local Open Scope nat_scope.

(** ** Chunk formatter *)

Module Chunk.

Section WithWords.

Variable words : list string.
Variable charLimit : nat.

(** [words[i].length + 1] for an index under the loop guard. *)
Definition wLen (i : nat) : nat := String.length (nth i words "") + 1.

(** The loop of [getChunkText]; the state is [(buffer, totalChars, i)]
    and the result is the buffer together with the final [i]. *)
Fixpoint getChunkText_loop (fuel : nat) (buffer : list string)
         (totalChars i : nat) : list string * nat :=
  match fuel with
  | O => (buffer, i)
  | S fuel' =>
      if i <? List.length words then
        let w := nth i words "" in
        if charLimit <? totalChars + wLen i then
          if List.length buffer =? 0 then (buffer ++ [w], i + 1)
          else (buffer, i)
        else getChunkText_loop fuel' (buffer ++ [w]) (totalChars + wLen i) (i + 1)
      else (buffer, i)
  end.

(** [getChunkText], with the cursor [position] it closes over made a
    parameter. *)
Definition getChunkText (position : nat) : string :=
  if List.length words =? 0 then ""
  else String.concat " "
         (fst (getChunkText_loop (List.length words - position) [] 0 position)).

(** The shared forward loop of [getNextChunkStart] and of the autoplay
    tick: state [(next, total)], result the final [next]. *)
Fixpoint forward_loop (fuel : nat) (next total : nat) : nat :=
  match fuel with
  | O => next
  | S fuel' =>
      if next <? List.length words then
        if charLimit <? total + wLen next then next
        else forward_loop fuel' (next + 1) (total + wLen next)
      else next
  end.

Definition getNextChunkStart (pos : nat) : nat :=
  let next := forward_loop (List.length words - pos) pos 0 in
  if next =? pos then Nat.min (List.length words) (pos + 1) else next.

(** The loop of [getPrevChunkStart]; [words[prev - 1]] is read without a
    bound check against the length. *)
Fixpoint backward_loop (fuel : nat) (prev total : nat) : option nat :=
  match fuel with
  | O => Some prev
  | S fuel' =>
      if 0 <? prev then
        match nth_error words (prev - 1) with
        | None => None
        | Some w =>
            let len := String.length w + 1 in
            if charLimit <? total + len then Some prev
            else backward_loop fuel' (prev - 1) (total + len)
        end
      else Some prev
  end.

Definition getPrevChunkStart (pos : nat) : option nat :=
  match backward_loop pos pos 0 with
  | None => None
  | Some prev => Some (if prev =? pos then Nat.max 0 (pos - 1) else prev)
  end.

End WithWords.

End Chunk.

(** ** Pacing clock *)

Module Pacing.

(** [Math.round]: the nearest integer, a tie going up.  The rate is an
    integer, so the quotient [60000 / rate] is a rational number; it is
    either a half-integer, which a double holds exactly, or at least
    [1 / (2 * rate)] away from one, so rounding the double quotient and
    rounding the rational agree. *)
Definition Math_round (x : Q) : Z := Qfloor (x + (1 # 2))%Q.

(** [msPerChunk] of the autoplay effect of [useSpeedReader]. *)
Definition msPerChunk (wpm : Z) : Z :=
  Z.max 1 (Math_round (inject_Z 60000 / inject_Z (Z.max 1 wpm))%Q).

(** [msPerPair] of [startPairTimer]. *)
Definition msPerPair (wpm : Z) : Z :=
  Z.max 1 (Math_round (inject_Z 60000 / inject_Z (Z.max 1 wpm))%Q).

End Pacing.

(** ** State of a reading session

    The state cells of [useSpeedReader] and [ReadingView], the two rate
    settings of [SpeedReaderApp] they read, and the refs ([...Ref]), which
    are written in place.  A timer ref holds the period of the running
    interval, [None] when no interval runs. *)

Record App : Type := mkApp {
  position : nat;
  isPlaying : bool;
  intervalRef : option Z;
  wpm : Z;
  charLimit : nat;
  isAngleMode : bool;
  pairGap : Z;
  pairPos : nat;
  isPairPlaying : bool;
  pairTimerRef : option Z;
  isTraining : bool;
  trainingDir : Z;
  pairsSinceStepRef : nat;
  showGuide : bool;
  positionRef : nat;
  lastSyncedPosRef : Z;
  prevPairPosRef : nat
}.

Definition setPosition (v : nat) (st : App) : App :=
  {| position := v; isPlaying := isPlaying st; intervalRef := intervalRef st;
     wpm := wpm st; charLimit := charLimit st; isAngleMode := isAngleMode st;
     pairGap := pairGap st; pairPos := pairPos st;
     isPairPlaying := isPairPlaying st; pairTimerRef := pairTimerRef st;
     isTraining := isTraining st; trainingDir := trainingDir st;
     pairsSinceStepRef := pairsSinceStepRef st; showGuide := showGuide st;
     positionRef := positionRef st; lastSyncedPosRef := lastSyncedPosRef st;
     prevPairPosRef := prevPairPosRef st |}.

Definition setIsPlaying (v : bool) (st : App) : App :=
  {| position := position st; isPlaying := v; intervalRef := intervalRef st;
     wpm := wpm st; charLimit := charLimit st; isAngleMode := isAngleMode st;
     pairGap := pairGap st; pairPos := pairPos st;
     isPairPlaying := isPairPlaying st; pairTimerRef := pairTimerRef st;
     isTraining := isTraining st; trainingDir := trainingDir st;
     pairsSinceStepRef := pairsSinceStepRef st; showGuide := showGuide st;
     positionRef := positionRef st; lastSyncedPosRef := lastSyncedPosRef st;
     prevPairPosRef := prevPairPosRef st |}.

Definition set_intervalRef (v : option Z) (st : App) : App :=
  {| position := position st; isPlaying := isPlaying st; intervalRef := v;
     wpm := wpm st; charLimit := charLimit st; isAngleMode := isAngleMode st;
     pairGap := pairGap st; pairPos := pairPos st;
     isPairPlaying := isPairPlaying st; pairTimerRef := pairTimerRef st;
     isTraining := isTraining st; trainingDir := trainingDir st;
     pairsSinceStepRef := pairsSinceStepRef st; showGuide := showGuide st;
     positionRef := positionRef st; lastSyncedPosRef := lastSyncedPosRef st;
     prevPairPosRef := prevPairPosRef st |}.

Definition setWpm (v : Z) (st : App) : App :=
  {| position := position st; isPlaying := isPlaying st;
     intervalRef := intervalRef st; wpm := v; charLimit := charLimit st;
     isAngleMode := isAngleMode st; pairGap := pairGap st;
     pairPos := pairPos st; isPairPlaying := isPairPlaying st;
     pairTimerRef := pairTimerRef st; isTraining := isTraining st;
     trainingDir := trainingDir st;
     pairsSinceStepRef := pairsSinceStepRef st; showGuide := showGuide st;
     positionRef := positionRef st; lastSyncedPosRef := lastSyncedPosRef st;
     prevPairPosRef := prevPairPosRef st |}.

Definition setCharLimit (v : nat) (st : App) : App :=
  {| position := position st; isPlaying := isPlaying st;
     intervalRef := intervalRef st; wpm := wpm st; charLimit := v;
     isAngleMode := isAngleMode st; pairGap := pairGap st;
     pairPos := pairPos st; isPairPlaying := isPairPlaying st;
     pairTimerRef := pairTimerRef st; isTraining := isTraining st;
     trainingDir := trainingDir st;
     pairsSinceStepRef := pairsSinceStepRef st; showGuide := showGuide st;
     positionRef := positionRef st; lastSyncedPosRef := lastSyncedPosRef st;
     prevPairPosRef := prevPairPosRef st |}.

Definition setIsAngleMode (v : bool) (st : App) : App :=
  {| position := position st; isPlaying := isPlaying st;
     intervalRef := intervalRef st; wpm := wpm st; charLimit := charLimit st;
     isAngleMode := v; pairGap := pairGap st; pairPos := pairPos st;
     isPairPlaying := isPairPlaying st; pairTimerRef := pairTimerRef st;
     isTraining := isTraining st; trainingDir := trainingDir st;
     pairsSinceStepRef := pairsSinceStepRef st; showGuide := showGuide st;
     positionRef := positionRef st; lastSyncedPosRef := lastSyncedPosRef st;
     prevPairPosRef := prevPairPosRef st |}.

Definition setPairGap (v : Z) (st : App) : App :=
  {| position := position st; isPlaying := isPlaying st;
     intervalRef := intervalRef st; wpm := wpm st; charLimit := charLimit st;
     isAngleMode := isAngleMode st; pairGap := v; pairPos := pairPos st;
     isPairPlaying := isPairPlaying st; pairTimerRef := pairTimerRef st;
     isTraining := isTraining st; trainingDir := trainingDir st;
     pairsSinceStepRef := pairsSinceStepRef st; showGuide := showGuide st;
     positionRef := positionRef st; lastSyncedPosRef := lastSyncedPosRef st;
     prevPairPosRef := prevPairPosRef st |}.

Definition setPairPos (v : nat) (st : App) : App :=
  {| position := position st; isPlaying := isPlaying st;
     intervalRef := intervalRef st; wpm := wpm st; charLimit := charLimit st;
     isAngleMode := isAngleMode st; pairGap := pairGap st; pairPos := v;
     isPairPlaying := isPairPlaying st; pairTimerRef := pairTimerRef st;
     isTraining := isTraining st; trainingDir := trainingDir st;
     pairsSinceStepRef := pairsSinceStepRef st; showGuide := showGuide st;
     positionRef := positionRef st; lastSyncedPosRef := lastSyncedPosRef st;
     prevPairPosRef := prevPairPosRef st |}.

Definition setIsPairPlaying (v : bool) (st : App) : App :=
  {| position := position st; isPlaying := isPlaying st;
     intervalRef := intervalRef st; wpm := wpm st; charLimit := charLimit st;
     isAngleMode := isAngleMode st; pairGap := pairGap st;
     pairPos := pairPos st; isPairPlaying := v;
     pairTimerRef := pairTimerRef st; isTraining := isTraining st;
     trainingDir := trainingDir st;
     pairsSinceStepRef := pairsSinceStepRef st; showGuide := showGuide st;
     positionRef := positionRef st; lastSyncedPosRef := lastSyncedPosRef st;
     prevPairPosRef := prevPairPosRef st |}.

Definition set_pairTimerRef (v : option Z) (st : App) : App :=
  {| position := position st; isPlaying := isPlaying st;
     intervalRef := intervalRef st; wpm := wpm st; charLimit := charLimit st;
     isAngleMode := isAngleMode st; pairGap := pairGap st;
     pairPos := pairPos st; isPairPlaying := isPairPlaying st;
     pairTimerRef := v; isTraining := isTraining st;
     trainingDir := trainingDir st;
     pairsSinceStepRef := pairsSinceStepRef st; showGuide := showGuide st;
     positionRef := positionRef st; lastSyncedPosRef := lastSyncedPosRef st;
     prevPairPosRef := prevPairPosRef st |}.

Definition setIsTraining (v : bool) (st : App) : App :=
  {| position := position st; isPlaying := isPlaying st;
     intervalRef := intervalRef st; wpm := wpm st; charLimit := charLimit st;
     isAngleMode := isAngleMode st; pairGap := pairGap st;
     pairPos := pairPos st; isPairPlaying := isPairPlaying st;
     pairTimerRef := pairTimerRef st; isTraining := v;
     trainingDir := trainingDir st;
     pairsSinceStepRef := pairsSinceStepRef st; showGuide := showGuide st;
     positionRef := positionRef st; lastSyncedPosRef := lastSyncedPosRef st;
     prevPairPosRef := prevPairPosRef st |}.

Definition setTrainingDir (v : Z) (st : App) : App :=
  {| position := position st; isPlaying := isPlaying st;
     intervalRef := intervalRef st; wpm := wpm st; charLimit := charLimit st;
     isAngleMode := isAngleMode st; pairGap := pairGap st;
     pairPos := pairPos st; isPairPlaying := isPairPlaying st;
     pairTimerRef := pairTimerRef st; isTraining := isTraining st;
     trainingDir := v; pairsSinceStepRef := pairsSinceStepRef st;
     showGuide := showGuide st; positionRef := positionRef st;
     lastSyncedPosRef := lastSyncedPosRef st;
     prevPairPosRef := prevPairPosRef st |}.

Definition set_pairsSinceStepRef (v : nat) (st : App) : App :=
  {| position := position st; isPlaying := isPlaying st;
     intervalRef := intervalRef st; wpm := wpm st; charLimit := charLimit st;
     isAngleMode := isAngleMode st; pairGap := pairGap st;
     pairPos := pairPos st; isPairPlaying := isPairPlaying st;
     pairTimerRef := pairTimerRef st; isTraining := isTraining st;
     trainingDir := trainingDir st; pairsSinceStepRef := v;
     showGuide := showGuide st; positionRef := positionRef st;
     lastSyncedPosRef := lastSyncedPosRef st;
     prevPairPosRef := prevPairPosRef st |}.

Definition setShowGuide (v : bool) (st : App) : App :=
  {| position := position st; isPlaying := isPlaying st;
     intervalRef := intervalRef st; wpm := wpm st; charLimit := charLimit st;
     isAngleMode := isAngleMode st; pairGap := pairGap st;
     pairPos := pairPos st; isPairPlaying := isPairPlaying st;
     pairTimerRef := pairTimerRef st; isTraining := isTraining st;
     trainingDir := trainingDir st;
     pairsSinceStepRef := pairsSinceStepRef st; showGuide := v;
     positionRef := positionRef st; lastSyncedPosRef := lastSyncedPosRef st;
     prevPairPosRef := prevPairPosRef st |}.

Definition set_positionRef (v : nat) (st : App) : App :=
  {| position := position st; isPlaying := isPlaying st;
     intervalRef := intervalRef st; wpm := wpm st; charLimit := charLimit st;
     isAngleMode := isAngleMode st; pairGap := pairGap st;
     pairPos := pairPos st; isPairPlaying := isPairPlaying st;
     pairTimerRef := pairTimerRef st; isTraining := isTraining st;
     trainingDir := trainingDir st;
     pairsSinceStepRef := pairsSinceStepRef st; showGuide := showGuide st;
     positionRef := v; lastSyncedPosRef := lastSyncedPosRef st;
     prevPairPosRef := prevPairPosRef st |}.

Definition set_lastSyncedPosRef (v : Z) (st : App) : App :=
  {| position := position st; isPlaying := isPlaying st;
     intervalRef := intervalRef st; wpm := wpm st; charLimit := charLimit st;
     isAngleMode := isAngleMode st; pairGap := pairGap st;
     pairPos := pairPos st; isPairPlaying := isPairPlaying st;
     pairTimerRef := pairTimerRef st; isTraining := isTraining st;
     trainingDir := trainingDir st;
     pairsSinceStepRef := pairsSinceStepRef st; showGuide := showGuide st;
     positionRef := positionRef st; lastSyncedPosRef := v;
     prevPairPosRef := prevPairPosRef st |}.

Definition set_prevPairPosRef (v : nat) (st : App) : App :=
  {| position := position st; isPlaying := isPlaying st;
     intervalRef := intervalRef st; wpm := wpm st; charLimit := charLimit st;
     isAngleMode := isAngleMode st; pairGap := pairGap st;
     pairPos := pairPos st; isPairPlaying := isPairPlaying st;
     pairTimerRef := pairTimerRef st; isTraining := isTraining st;
     trainingDir := trainingDir st;
     pairsSinceStepRef := pairsSinceStepRef st; showGuide := showGuide st;
     positionRef := positionRef st; lastSyncedPosRef := lastSyncedPosRef st;
     prevPairPosRef := v |}.

Notation "st |> f" := (f st) (at level 45, left associativity, only parsing).

Definition WPM_MIN : Z := 60.
Definition WPM_MAX : Z := 1200.
Definition WPM_STEP : Z := 10.
Definition CHAR_MIN : nat := 10.
Definition CHAR_MAX : nat := 100.
Definition CHAR_STEP : nat := 5.
Definition TRAIN_MIN : Z := 10.
Definition TRAIN_MAX : Z := 550.
Definition TRAIN_STEP : Z := 10.
Definition TRAIN_EVERY_PAIRS : nat := 3.

Definition clamp (n min max : Z) : Z := Z.max min (Z.min max n).

(** The state of a freshly mounted [ReadingView] over a reader at
    [pos], paused. *)
Definition mounted (pos : nat) (rate : Z) (limit : nat) : App :=
  {| position := pos; isPlaying := false; intervalRef := None;
     wpm := rate; charLimit := limit;
     isAngleMode := false; pairGap := 500; pairPos := 0;
     isPairPlaying := false; pairTimerRef := None;
     isTraining := false; trainingDir := 1; pairsSinceStepRef := 0;
     showGuide := false; positionRef := pos; lastSyncedPosRef := (-1)%Z;
     prevPairPosRef := 0 |}.


(** ** The session machine *)

Section Session.

Variable words : list string.
(** [isPeripheral] of [SpeedReaderApp]; no command of the session
    changes it. *)
Variable isPeripheral : bool.

Local Abbreviation len := (List.length words).

(** [pairStep], passed to [useSpeedReader] as its [stepSize]. *)
Definition pairStep : nat := if isPeripheral then 2 else 1.

(** *** [useSpeedReader] *)

Definition stopInterval (st : App) : App := set_intervalRef None st.

Definition togglePlay (st : App) : App :=
  if 0 <? len then setIsPlaying (negb (isPlaying st)) st else st.

Definition resetPosition (st : App) : App :=
  st |> setPosition 0 |> setIsPlaying false.

Definition jumpToPosition (newPos : nat) (st : App) : App :=
  setPosition (Nat.max 0 (Nat.min newPos (Nat.max 0 (len - 1)))) st.

(** The index the interval callback computes from the position [p]. *)
Definition tickNext (limit p : nat) : nat :=
  if pairStep =? 1 then
    let next := Chunk.forward_loop words limit (len - p) p 0 in
    if next =? p then Nat.min len (p + 1) else next
  else Nat.min len (p + pairStep).

(** The interval callback: the updater passed to [setPosition], with the
    two calls it makes on reaching the end. *)
Definition tick (st : App) : App :=
  let p := position st in
  let next := tickNext (charLimit st) p in
  if len <=? next then st |> stopInterval |> setIsPlaying false |> setPosition p
  else setPosition next st.

(** *** [ReadingView] *)

Definition leftIndex (st : App) : nat :=
  Nat.max 0 (pairPos st - (pairPos st) mod 2).
Definition wLeft (st : App) : string := nth (leftIndex st) words "".
Definition wRight (st : App) : string := nth (leftIndex st + 1) words "".

Definition stopPairTimer (st : App) : App := set_pairTimerRef None st.

(** The callback of the pair interval. *)
Definition pairTick (st : App) : App :=
  let p := pairPos st in
  let next := p + 2 in
  if len <=? next then st |> stopPairTimer |> setIsPairPlaying false |> setPairPos p
  else setPairPos next st.

(** [startPairTimer] as created by the render [r]. *)
Definition startPairTimer (r st : App) : App :=
  st |> stopPairTimer |> set_pairTimerRef (Some (Pacing.msPerPair (wpm r))).

(** Handlers.  A handler reads the state variables of the render that
    created it, which is the state it is applied to. *)

Definition toggleTraining (st : App) : App :=
  if negb (isTraining st) then
    (if negb (isAngleMode st) then setIsAngleMode true st else st)
    |> setIsPlaying false
    |> set_pairsSinceStepRef 0
    |> setTrainingDir 1
    |> setPairGap TRAIN_MIN
    |> setIsTraining true
    |> setIsPairPlaying true
    |> set_prevPairPosRef (leftIndex st)
    |> setShowGuide true
  else
    st |> setIsTraining false |> setIsPairPlaying false |> setIsAngleMode false.

Definition handleStartPause (st : App) : App :=
  if isAngleMode st then setIsPairPlaying (negb (isPairPlaying st)) st
  else togglePlay st.

(** [handleSeek] of [SpeedReaderApp]. *)
Definition handleSeek (newPos : nat) (st : App) : App :=
  let st := setIsPlaying false st in
  if isPeripheral then jumpToPosition (newPos - newPos mod 2) st
  else jumpToPosition newPos st.

Inductive Key : Type :=
  ArrowUp | ArrowDown | Space | ArrowRight | ArrowLeft | OtherKey.

(** [onKey]; the listener is not registered over an empty sequence. *)
Definition onKey (e : Key) (st : App) : App :=
  if len =? 0 then st else
  match e with
  | ArrowUp => setWpm (clamp (wpm st + 10) 20 1000) st
  | ArrowDown => setWpm (clamp (wpm st - 10) 20 1000) st
  | Space => handleStartPause st
  | ArrowRight =>
      if isAngleMode st then
        st |> setIsPairPlaying false
           |> setPairPos (Nat.min (pairPos st + 2) (Nat.max 0 (len - 2)))
      else
        st |> setIsPlaying false
           |> jumpToPosition
                (Chunk.getNextChunkStart words (charLimit st) (position st))
  | ArrowLeft =>
      if isAngleMode st then
        st |> setIsPairPlaying false
           |> setPairPos (Nat.max 0 (pairPos st - 2))
      else
        match Chunk.getPrevChunkStart words (charLimit st) (position st) with
        | Some prev => st |> setIsPlaying false |> jumpToPosition prev
        | None => st |> setIsPlaying false
        end
  | OtherKey => st
  end.

(** Every command a mounted [ReadingView] can receive: keys, buttons,
    the slider and the two interval callbacks. *)
Inductive Event : Type :=
| KeyDown (e : Key)
| ClickStartPause
| ClickAngleMode
| ClickTraining
| ClickGuide
| ClickGapLess
| ClickGapMore
| ClickDecWpm
| ClickIncWpm
| ClickDecChars
| ClickIncChars
| Seek (newPos : nat)
| IntervalFires
| PairIntervalFires.

Definition handle (ev : Event) (st : App) : App :=
  match ev with
  | KeyDown e => onKey e st
  | ClickStartPause => handleStartPause st
  | ClickAngleMode => setIsAngleMode (negb (isAngleMode st)) st
  | ClickTraining => toggleTraining st
  | ClickGuide => setShowGuide (negb (showGuide st)) st
  | ClickGapLess =>
      if isAngleMode st then setPairGap (Z.max 0 (pairGap st - 10)) st else st
  | ClickGapMore =>
      if isAngleMode st then setPairGap (Z.min 1200 (pairGap st + 10)) st else st
  | ClickDecWpm => setWpm (clamp (wpm st - WPM_STEP) WPM_MIN WPM_MAX) st
  | ClickIncWpm => setWpm (clamp (wpm st + WPM_STEP) WPM_MIN WPM_MAX) st
  | ClickDecChars =>
      if isAngleMode st then st
      else setCharLimit (Nat.max 10 (charLimit st - 5)) st
  | ClickIncChars =>
      if isAngleMode st then st
      else setCharLimit (Nat.min 100 (charLimit st + 5)) st
  | Seek newPos => if isAngleMode st then st else handleSeek newPos st
  | IntervalFires =>
      match intervalRef st with Some _ => tick st | None => st end
  | PairIntervalFires =>
      match pairTimerRef st with Some _ => pairTick st | None => st end
  end.

(** *** Effects

    An effect reads the state variables of the render [r] that created
    it and the refs as they are when it runs; its writes go to the
    state [c] being built.  A functional updater reads [c]. *)

Definition positionRefEffect (r c : App) : App :=
  set_positionRef (position r) c.

Definition angleModeEffect (r c : App) : App :=
  if isAngleMode r then
    let pos := positionRef c in
    let evenFromPosition := Nat.max 0 (pos - pos mod 2) in
    c |> setIsPlaying false
      |> setPairPos evenFromPosition
      |> setIsPairPlaying false
      |> stopPairTimer
      |> set_lastSyncedPosRef (-1)%Z
      |> set_prevPairPosRef evenFromPosition
  else
    c |> setIsTraining false
      |> setIsPairPlaying false
      |> stopPairTimer
      |> set_lastSyncedPosRef (-1)%Z.

(** The cleanup of the previous run comes first. *)
Definition pairTimerEffect (r c : App) : App :=
  let c := stopPairTimer c in
  if negb (isAngleMode r) then c
  else if isPairPlaying r then startPairTimer r c
  else stopPairTimer c.

Definition syncEffect (r c : App) : App :=
  if negb (isAngleMode r) then c
  else if negb (lastSyncedPosRef c =? Z.of_nat (leftIndex r))%Z then
    c |> set_lastSyncedPosRef (Z.of_nat (leftIndex r))
      |> jumpToPosition (leftIndex r)
  else c.

(** The updater passed to [setPairGap], closed over [trainingDir]. *)
Definition trainingGapStep (dir : Z) (c : App) : App :=
  let next := (pairGap c + dir * TRAIN_STEP)%Z in
  if (TRAIN_MAX <=? next)%Z then
    c |> setTrainingDir (-1)%Z |> setPairGap TRAIN_MAX
  else if (next <=? TRAIN_MIN)%Z then
    c |> setTrainingDir 1%Z |> setPairGap TRAIN_MIN
  else setPairGap next c.

Definition trainingEffect (r c : App) : App :=
  if negb (isAngleMode r && isTraining r) then
    set_prevPairPosRef (pairPos r) c
  else if prevPairPosRef c <? pairPos r then
    let c := set_pairsSinceStepRef (pairsSinceStepRef c + 1) c in
    let c :=
      if TRAIN_EVERY_PAIRS <=? pairsSinceStepRef c then
        c |> set_pairsSinceStepRef 0 |> trainingGapStep (trainingDir r)
      else c in
    set_prevPairPosRef (pairPos r) c
  else c.

(** The autoplay effect of [useSpeedReader], after its cleanup. *)
Definition autoplayEffect (r c : App) : App :=
  let c := stopInterval c in
  if negb (isPlaying r) || (len =? 0) then stopInterval c
  else c |> stopInterval
         |> set_intervalRef (Some (Pacing.msPerChunk (wpm r))).

(** *** Commit

    After the render [r] that follows the render [p], the effects whose
    dependencies changed run in the order of their declaration, the
    child's before the parent's. *)

Definition when (b : bool) (f : App -> App) (c : App) : App :=
  if b then f c else c.

Definition pass (p r : App) (c : App) : App :=
  let d_position := negb (position p =? position r) in
  let d_angle := negb (Bool.eqb (isAngleMode p) (isAngleMode r)) in
  let d_pairPlaying := negb (Bool.eqb (isPairPlaying p) (isPairPlaying r)) in
  let d_wpm := negb (wpm p =? wpm r)%Z in
  let d_left := negb (leftIndex p =? leftIndex r) in
  let d_pairPos := negb (pairPos p =? pairPos r) in
  let d_training := negb (Bool.eqb (isTraining p) (isTraining r)) in
  let d_dir := negb (trainingDir p =? trainingDir r)%Z in
  let d_playing := negb (Bool.eqb (isPlaying p) (isPlaying r)) in
  let d_limit := negb (charLimit p =? charLimit r) in
  c |> when d_position (positionRefEffect r)
    |> when d_angle (angleModeEffect r)
    |> when (d_pairPlaying || d_angle || d_wpm) (pairTimerEffect r)
    |> when (d_angle || d_left) (syncEffect r)
    |> when (d_pairPos || d_angle || d_training || d_dir) (trainingEffect r)
    |> when (d_playing || d_wpm || d_limit) (autoplayEffect r).

(** Renders and passes alternate until a pass changes nothing; [n]
    bounds their number. *)
Fixpoint commit (n : nat) (p r : App) : App :=
  match n with
  | O => r
  | S n' => commit n' r (pass p r r)
  end.

Definition dispatch (ev : Event) (st : App) : App :=
  commit 4 st (handle ev st).

Definition run (evs : list Event) (st : App) : App :=
  fold_left (fun s ev => dispatch ev s) evs st.

End Session.

(** ** Vocabulary of the statements *)

Definition sample : list string := ["The"; "quick"; "brown"; "fox"; "jumps"].
Definition three : list string := ["a"; "b"; "c"].

(** The words at the indices [a <= j < b]. *)
Definition slice (words : list string) (a b : nat) : list string :=
  map (fun j => nth j words "") (seq a (b - a)).

(** What a run of words adds to the running total: each word its length
    plus one. *)
Definition cost (ws : list string) : nat :=
  list_sum (map (fun w => String.length w + 1) ws).

(** The states of a session: a freshly mounted view, and every state a
    command leads to. *)
Inductive reachable (words : list string) (isPeripheral : bool) : App -> Prop :=
| reach_mounted (pos : nat) (rate : Z) (limit : nat) :
    reachable words isPeripheral (mounted pos rate limit)
| reach_dispatch (st : App) (ev : Event) :
    reachable words isPeripheral st ->
    reachable words isPeripheral (dispatch words isPeripheral ev st).

(** [k] is the quotient [a / b] rounded to the nearest integer, a tie
    going up: [k - 1/2 <= a / b < k + 1/2], cleared of fractions. *)
Definition nearest_tie_up (a b k : Z) : Prop :=
  ((2 * k - 1) * b <= 2 * a < (2 * k + 1) * b)%Z.



(** Linear mode with nothing of Paired mode left running. *)
Definition linear_idle (c : App) : Prop :=
  isTraining c = false /\ isPairPlaying c = false /\ isAngleMode c = false.



(** The cursors point into the sequence. *)
Definition in_range (words : list string) (st : App) : Prop :=
  position st < List.length words /\
  positionRef st < List.length words /\
  pairPos st < List.length words.

(** The settings are within the bounds of their controls. *)
Definition settings_ok (st : App) : Prop :=
  (20 <= wpm st <= 1200)%Z /\ 10 <= charLimit st <= 100 /\
  (0 <= pairGap st <= 1200)%Z.

(** Training only in Paired mode, linear playback only in Linear mode. *)
Definition modes_ok (st : App) : Prop :=
  (isTraining st = true -> isAngleMode st = true) /\
  (isAngleMode st = true -> isPlaying st = false).

(** The interval the autoplay effect leaves for a render. *)
Definition interval_of (words : list string) (st : App) : option Z :=
  if negb (isPlaying st) || (List.length words =? 0) then None
  else Some (Pacing.msPerChunk (wpm st)).

(** The interval the pair timer effect leaves for a render. *)
Definition pair_interval_of (st : App) : option Z :=
  if isAngleMode st && isPairPlaying st
  then Some (Pacing.msPerPair (wpm st)) else None.

(** A state in which every effect has caught up with the state cells. *)
Definition settled (words : list string) (st : App) : Prop :=
  modes_ok st /\
  intervalRef st = interval_of words st /\
  pairTimerRef st = pair_interval_of st /\
  positionRef st = position st /\
  (isAngleMode st = true ->
   lastSyncedPosRef st = Z.of_nat (leftIndex st) /\
   position st = Nat.min (leftIndex st) (List.length words - 1)).

(** The state [r] as the effects of the render [p] leave it: every effect
    that will not run again has caught up with its dependencies. *)
Definition follows (words : list string) (p r : App) : Prop :=
  (isAngleMode p = isAngleMode r -> modes_ok r) /\
  (isPlaying p = isPlaying r -> wpm p = wpm r -> charLimit p = charLimit r ->
   intervalRef r = interval_of words r) /\
  (isAngleMode p = isAngleMode r -> isPairPlaying p = isPairPlaying r ->
   wpm p = wpm r -> pairTimerRef r = pair_interval_of r) /\
  (isAngleMode p = true ->
   lastSyncedPosRef r = Z.of_nat (leftIndex p) /\
   position r = Nat.min (leftIndex p) (List.length words - 1)) /\
  positionRef r = position p.

(** ** The chunk formatter *)

Section ChunkFacts.

Variable words : list string.
Variable charLimit : nat.

Local Abbreviation len := (List.length words).
Local Abbreviation wLen := (Chunk.wLen words).
Local Abbreviation forward_loop := (Chunk.forward_loop words charLimit).
Local Abbreviation backward_loop := (Chunk.backward_loop words charLimit).
Local Abbreviation getNextChunkStart := (Chunk.getNextChunkStart words charLimit).
Local Abbreviation getPrevChunkStart := (Chunk.getPrevChunkStart words charLimit).
Local Abbreviation getChunkText := (Chunk.getChunkText words charLimit).

Lemma slice_nil a : slice words a a = [].
Proof. unfold slice. now rewrite Nat.sub_diag. Qed.

Lemma slice_cons a b :
  a < b -> slice words a b = nth a words "" :: slice words (a + 1) b.
Proof.
  intros H. unfold slice.
  replace (b - a) with (S (b - (a + 1))) by lia.
  cbn [seq map]. now rewrite Nat.add_1_r.
Qed.

Lemma slice_snoc a b :
  a <= b -> slice words a (b + 1) = slice words a b ++ [nth b words ""].
Proof.
  intros H. unfold slice.
  replace (b + 1 - a) with (S (b - a)) by lia.
  rewrite seq_S, map_app. cbn [map].
  now replace (a + (b - a)) with b by lia.
Qed.

Lemma cost_nil : cost [] = 0.
Proof. reflexivity. Qed.

Lemma cost_app l1 l2 : cost (l1 ++ l2) = cost l1 + cost l2.
Proof. unfold cost. now rewrite map_app, list_sum_app. Qed.

Lemma cost_slice_cons a b :
  a < b -> cost (slice words a b) = wLen a + cost (slice words (a + 1) b).
Proof. intros H. now rewrite (slice_cons a b H). Qed.

Lemma cost_slice_snoc a b :
  a <= b -> cost (slice words a (b + 1)) = cost (slice words a b) + wLen b.
Proof.
  intros H. rewrite (slice_snoc a b H), cost_app.
  unfold cost at 2. cbn. unfold Chunk.wLen. lia.
Qed.

(** The forward loop never runs out of the fuel [len - next]. *)
Lemma forward_loop_fuel fuel extra next total :
  len - next <= fuel ->
  forward_loop (fuel + extra) next total = forward_loop fuel next total.
Proof.
  revert next total.
  induction fuel as [|fuel IH]; intros next total Hf.
  - destruct extra as [|extra]; cbn [Nat.add Chunk.forward_loop]; [reflexivity|].
    destruct (Nat.ltb_spec next len); [lia | reflexivity].
  - cbn [Nat.add Chunk.forward_loop].
    destruct (Nat.ltb_spec next len); [|reflexivity].
    destruct (charLimit <? total + wLen next); [reflexivity|].
    apply IH. lia.
Qed.

(** What the forward loop returns: it stays within the sequence, keeps
    the running total within the limit, and stops at the end of the
    sequence or in front of the first word that does not fit. *)
Lemma forward_loop_spec fuel next total n :
  len - next <= fuel ->
  forward_loop fuel next total = n ->
  next <= n /\ n <= Nat.max next len /\
  (next < n -> total + cost (slice words next n) <= charLimit) /\
  (n < len -> charLimit < total + cost (slice words next n) + wLen n).
Proof.
  revert next total.
  induction fuel as [|fuel IH]; intros next total Hf Hn;
    cbn [Chunk.forward_loop] in Hn.
  - subst n. rewrite slice_nil, cost_nil. repeat split; lia.
  - destruct (Nat.ltb_spec next len) as [Hlt|Hge].
    + destruct (Nat.ltb_spec charLimit (total + wLen next)) as [Hover|Hfit].
      * subst n. rewrite slice_nil, cost_nil. repeat split; lia.
      * apply IH in Hn; [|lia].
        destruct Hn as (H1 & H2 & H3 & H4).
        assert (Hlt' : next < n) by lia.
        rewrite (cost_slice_cons next n Hlt').
        split; [lia|]. split; [lia|]. split.
        -- intros _. destruct (Nat.eq_dec n (next + 1)) as [->|Hne].
           ++ rewrite slice_nil, cost_nil. lia.
           ++ specialize (H3 ltac:(lia)). lia.
        -- intros Hl. specialize (H4 Hl). lia.
    + subst n. rewrite slice_nil, cost_nil. repeat split; lia.
Qed.

Lemma forward_loop_ge fuel next total :
  next <= forward_loop fuel next total.
Proof.
  revert next total.
  induction fuel as [|fuel IH]; intros next total;
    cbn [Chunk.forward_loop]; [lia|].
  destruct (next <? len); [|lia].
  destruct (charLimit <? total + wLen next); [lia|].
  specialize (IH (next + 1) (total + wLen next)). lia.
Qed.

(** [getNextChunkStart] in terms of the words it steps over. *)
Lemma getNextChunkStart_spec start n :
  start < len ->
  getNextChunkStart start = n ->
  start < n /\ n <= len /\
  ((charLimit < wLen start /\ n = start + 1) \/
   (cost (slice words start n) <= charLimit /\
    (n < len -> charLimit < cost (slice words start n) + wLen n))).
Proof.
  intros Hlt Hn. unfold Chunk.getNextChunkStart in Hn.
  remember (forward_loop (len - start) start 0) as m eqn:Hm.
  symmetry in Hm.
  pose proof (forward_loop_spec _ _ _ _ (Nat.le_refl _) Hm) as (H1 & H2 & H3 & H4).
  destruct (Nat.eqb_spec m start) as [->|Hne].
  - assert (Hn' : n = start + 1) by lia.
    split; [lia|]. split; [lia|]. left. split; [|exact Hn'].
    specialize (H4 Hlt). rewrite slice_nil, cost_nil in H4. lia.
  - subst n. split; [lia|]. split; [lia|]. right.
    split; [apply (H3 ltac:(lia)) | intros Hl; apply (H4 Hl)].
Qed.

Lemma getNextChunkStart_past_end start :
  len <= start -> getNextChunkStart start = len.
Proof.
  intros Hge. unfold Chunk.getNextChunkStart.
  replace (len - start) with 0 by lia. cbn [Chunk.forward_loop].
  rewrite Nat.eqb_refl. lia.
Qed.

(** Once the buffer holds a word, the loop of [getChunkText] collects
    exactly the words the forward loop steps over. *)
Lemma getChunkText_loop_nonempty fuel buffer total i :
  buffer <> [] ->
  Chunk.getChunkText_loop words charLimit fuel buffer total i =
  (buffer ++ slice words i (forward_loop fuel i total),
   forward_loop fuel i total).
Proof.
  revert buffer total i.
  induction fuel as [|fuel IH]; intros buffer total i Hb;
    cbn [Chunk.getChunkText_loop Chunk.forward_loop].
  - now rewrite slice_nil, app_nil_r.
  - destruct (Nat.ltb_spec i len) as [Hlt|Hge].
    + destruct (Nat.ltb_spec charLimit (total + wLen i)) as [Hover|Hfit].
      * destruct buffer as [|b bs]; [congruence|].
        cbn [List.length Nat.eqb]. now rewrite slice_nil, app_nil_r.
      * rewrite IH by (destruct buffer; discriminate).
        set (m := forward_loop fuel (i + 1) (total + wLen i)).
        assert (Hm : i < m).
        { pose proof (forward_loop_ge fuel (i + 1) (total + wLen i)). lia. }
        rewrite (slice_cons i m Hm), <- app_assoc. reflexivity.
    + now rewrite slice_nil, app_nil_r.
Qed.

(** The text of a chunk that starts inside the sequence: the words up to
    the next chunk start, joined by single spaces. *)
Lemma getChunkText_inside start :
  start < len ->
  getChunkText start =
  String.concat " " (slice words start (getNextChunkStart start)).
Proof.
  intros Hlt. unfold Chunk.getChunkText, Chunk.getNextChunkStart.
  destruct (Nat.eqb_spec len 0) as [H0|_]; [lia|].
  destruct (len - start) as [|fuel] eqn:Hfuel; [lia|].
  cbn [Chunk.getChunkText_loop Chunk.forward_loop].
  destruct (Nat.ltb_spec start len) as [_|]; [|lia].
  destruct (Nat.ltb_spec charLimit (0 + wLen start)) as [Hover|Hfit].
  - cbn [List.length Nat.eqb fst app]. rewrite Nat.eqb_refl.
    replace (Nat.min len (start + 1)) with (start + 1) by lia.
    rewrite (slice_cons start (start + 1)) by lia.
    now rewrite slice_nil.
  - rewrite getChunkText_loop_nonempty by discriminate.
    set (m := forward_loop fuel (start + 1) (0 + wLen start)).
    pose proof (forward_loop_ge fuel (start + 1) (0 + wLen start)) as Hge.
    fold m in Hge.
    destruct (Nat.eqb_spec m start) as [|_]; [lia|].
    cbn [fst app]. now rewrite (slice_cons start m) by lia.
Qed.

Lemma getChunkText_past_end start :
  len <= start -> getChunkText start = "".
Proof.
  intros Hge. unfold Chunk.getChunkText.
  destruct (len =? 0); [reflexivity|].
  now replace (len - start) with 0 by lia.
Qed.

(** The backward loop returns within a sequence it starts in. *)
Lemma backward_loop_le fuel prev total :
  prev <= len ->
  exists r, backward_loop fuel prev total = Some r /\ r <= prev.
Proof.
  revert prev total.
  induction fuel as [|fuel IH]; intros prev total Hle;
    cbn [Chunk.backward_loop]; [now exists prev|].
  destruct (Nat.ltb_spec 0 prev) as [Hpos|]; [|now exists prev].
  rewrite (nth_error_nth' words "") by lia.
  destruct (charLimit <? _); [now exists prev|].
  destruct (IH (prev - 1) (total + (String.length (nth (prev - 1) words "") + 1)))
    as (r & Hr & Hle'); [lia|].
  exists r. split; [exact Hr | lia].
Qed.

(** The backward loop walks over every run of words that fits the
    limit: from [prev] it comes back at least to [start]. *)
Lemma backward_loop_reaches start k :
  forall fuel prev total,
    prev = start + k -> prev <= len -> prev <= fuel ->
    total + cost (slice words start prev) <= charLimit ->
    exists r, backward_loop fuel prev total = Some r /\ r <= start.
Proof.
  induction k as [|k IH]; intros fuel prev total Hk Hle Hfuel Hcost.
  - replace prev with start in * by lia. now apply backward_loop_le.
  - destruct fuel as [|fuel]; [lia|]. cbn [Chunk.backward_loop].
    destruct (Nat.ltb_spec 0 prev) as [Hpos|]; [|lia].
    rewrite (nth_error_nth' words "") by lia.
    replace prev with (prev - 1 + 1) in Hcost by lia.
    rewrite cost_slice_snoc in Hcost by lia.
    unfold Chunk.wLen in Hcost.
    destruct (Nat.ltb_spec charLimit
                (total + (String.length (nth (prev - 1) words "") + 1)))
      as [Hover|Hfit]; [lia|].
    apply IH; lia.
Qed.

(** The end of the backward walk is never at [pos] itself. *)
Lemma getPrevChunkStart_le pos :
  pos <= len ->
  exists prev, getPrevChunkStart pos = Some prev /\ prev <= pos - 1.
Proof.
  intros Hle. unfold Chunk.getPrevChunkStart.
  destruct (backward_loop_le pos pos 0 Hle) as (r & -> & Hr).
  eexists. split; [reflexivity|].
  destruct (Nat.eqb_spec r pos); lia.
Qed.

End ChunkFacts.

(** C1, as stated, fails past the end of the sequence: from the start
    index 3 over a one-word sequence, [getNextChunkStart] returns the
    length 1, not the start index. *)
Lemma next_chunk_past_end_counterexample :
  ~ (1 <= 10 ->
     (3 < List.length ["a"] -> 3 < Chunk.getNextChunkStart ["a"] 10 3) /\
     (List.length ["a"] <= 3 ->
      Chunk.getChunkText ["a"] 10 3 = "" /\
      Chunk.getNextChunkStart ["a"] 10 3 = 3)).
Proof.
  intros H. destruct (H ltac:(lia)) as [_ H2].
  destruct (H2 ltac:(cbn; lia)) as [_ H3].
  vm_compute in H3. discriminate.
Qed.

(** C1 (amended): for every word sequence, every character budget of at
    least 1 and every start index, a start index inside the sequence gives
    a next index strictly greater than it; a start index at or past the
    end gives an empty chunk text and the length of the sequence as next
    index, which is the start index exactly when the start index is the
    length. *)
Theorem next_chunk_progress (words : list string) (charBudget startIndex : nat) :
  1 <= charBudget ->
  (startIndex < List.length words ->
   startIndex < Chunk.getNextChunkStart words charBudget startIndex) /\
  (List.length words <= startIndex ->
   Chunk.getChunkText words charBudget startIndex = "" /\
   Chunk.getNextChunkStart words charBudget startIndex = List.length words /\
   (Chunk.getNextChunkStart words charBudget startIndex = startIndex <->
    startIndex = List.length words)).
Proof.
  intros _. split.
  - intros Hlt.
    now destruct (getNextChunkStart_spec words charBudget startIndex _ Hlt eq_refl).
  - intros Hge.
    rewrite (getNextChunkStart_past_end words charBudget startIndex Hge).
    split; [now apply getChunkText_past_end|]. split; [reflexivity|].
    split; intros; lia.
Qed.

Lemma next_chunk_progress_witness :
  1 <= 10 /\
  (0 < List.length sample -> 0 < Chunk.getNextChunkStart sample 10 0) /\
  (List.length sample <= 0 ->
   Chunk.getChunkText sample 10 0 = "" /\
   Chunk.getNextChunkStart sample 10 0 = List.length sample /\
   (Chunk.getNextChunkStart sample 10 0 = 0 <-> 0 = List.length sample)).
Proof. split; [lia | apply (next_chunk_progress sample 10 0); lia]. Defined.

(** C3: the chunk computation accumulates words from the start index,
    each adding its length plus one to a running total, and stops in front
    of the first word that would take the total over the limit, except
    that a first word that alone exceeds the limit is taken by itself;
    over "The quick brown fox jumps" with limit 10 the first chunk is
    "The quick" and the next index is 2. *)
Theorem chunk_accumulates_within_limit :
  (forall (words : list string) (charLimit start : nat),
      start < List.length words ->
      let n := Chunk.getNextChunkStart words charLimit start in
      Chunk.getChunkText words charLimit start
      = String.concat " " (slice words start n) /\
      start < n <= List.length words /\
      ((charLimit < String.length (nth start words "") + 1 /\ n = start + 1) \/
       (cost (slice words start n) <= charLimit /\
        (n < List.length words ->
         charLimit
         < cost (slice words start n) + (String.length (nth n words "") + 1))))) /\
  Chunk.getChunkText sample 10 0 = "The quick" /\
  Chunk.getNextChunkStart sample 10 0 = 2.
Proof.
  split; [|split; reflexivity].
  intros words charLimit start Hlt n.
  split; [now apply getChunkText_inside|].
  destruct (getNextChunkStart_spec words charLimit start n Hlt eq_refl)
    as (H1 & H2 & H3).
  split; [lia | exact H3].
Qed.

Lemma chunk_accumulates_within_limit_witness :
  2 < List.length sample /\
  Chunk.getChunkText sample 10 2 = String.concat " " (slice sample 2 4) /\
  Chunk.getNextChunkStart sample 10 2 = 4 /\
  cost (slice sample 2 4) = 10.
Proof.
  split; [cbn; lia|].
  pose proof (proj1 chunk_accumulates_within_limit sample 10 2 ltac:(cbn; lia))
    as (H & _).
  split; [exact H | split; reflexivity].
Defined.

(** C7: for every word sequence, start index and character limit, the
    backward step taken from the index the forward step returns comes
    back to an index at or before the original start index. *)
Theorem prev_of_next_not_forward (words : list string) (charLimit startIndex : nat) :
  exists prev,
    Chunk.getPrevChunkStart words charLimit
      (Chunk.getNextChunkStart words charLimit startIndex) = Some prev /\
    prev <= startIndex.
Proof.
  destruct (Nat.le_gt_cases (List.length words) startIndex) as [Hge|Hlt].
  - rewrite (getNextChunkStart_past_end words charLimit startIndex Hge).
    destruct (getPrevChunkStart_le words charLimit (List.length words) (Nat.le_refl _))
      as (prev & Hp & Hle).
    exists prev. split; [exact Hp | lia].
  - destruct (getNextChunkStart_spec words charLimit startIndex _ Hlt eq_refl)
      as (H1 & H2 & [[_ H3] | [H3 _]]).
    + destruct (getPrevChunkStart_le words charLimit _ H2) as (prev & Hp & Hle).
      exists prev. split; [exact Hp | lia].
    + set (n := Chunk.getNextChunkStart words charLimit startIndex) in *.
      destruct (backward_loop_reaches words charLimit startIndex (n - startIndex)
                  n n 0 ltac:(lia) H2 (Nat.le_refl _) H3) as (r & Hr & Hle).
      exists r. unfold Chunk.getPrevChunkStart. rewrite Hr.
      destruct (Nat.eqb_spec r n); [lia|]. split; [reflexivity | exact Hle].
Qed.

(** ** The pacing clock *)

Section PacingFacts.

Local Open Scope Z_scope.

Lemma Math_round_quotient a w :
  0 < w ->
  Pacing.Math_round (inject_Z a / inject_Z w)%Q = (2 * a + w) / (2 * w).
Proof.
  intros Hw. destruct w as [|pw|pw]; try lia.
  unfold Pacing.Math_round, Qdiv, Qinv, inject_Z, Qmult, Qplus, Qfloor.
  cbn [Qnum Qden].
  rewrite Pos.mul_1_l, Pos2Z.inj_mul. f_equal; lia.
Qed.

(** [Math_round] is rounding to the nearest integer. *)
Lemma Math_round_nearest x :
  (inject_Z (Pacing.Math_round x) - (1 # 2) <= x
   /\ x < inject_Z (Pacing.Math_round x) + (1 # 2))%Q.
Proof.
  unfold Pacing.Math_round.
  pose proof (Qfloor_le (x + (1 # 2))) as Hle.
  pose proof (Qlt_floor (x + (1 # 2))) as Hlt.
  rewrite inject_Z_plus in Hlt. change (inject_Z 1) with 1%Q in Hlt.
  set (f := inject_Z (Qfloor (x + (1 # 2)))) in *. clearbody f.
  split; lra.
Qed.

Lemma msPerChunk_in_range w :
  60 <= w <= 1200 ->
  Pacing.msPerChunk w = Pacing.Math_round (inject_Z 60000 / inject_Z w)%Q
  /\ 1 <= Pacing.msPerChunk w.
Proof.
  intros Hw. unfold Pacing.msPerChunk.
  replace (Z.max 1 w) with w by lia.
  rewrite Math_round_quotient by lia.
  assert (1 <= (2 * 60000 + w) / (2 * w)).
  { apply Z.div_le_lower_bound; lia. }
  split; lia.
Qed.

(** The rounded quotient is the nearest integer, a tie going up, and no
    other integer is. *)
Lemma Math_round_nearest_tie_up a w :
  0 < w -> nearest_tie_up a w (Pacing.Math_round (inject_Z a / inject_Z w)%Q).
Proof.
  intros Hw. rewrite Math_round_quotient by exact Hw. unfold nearest_tie_up.
  pose proof (Z.div_mod (2 * a + w) (2 * w) ltac:(lia)) as Hdm.
  pose proof (Z.mod_pos_bound (2 * a + w) (2 * w) ltac:(lia)) as Hb.
  set (q := (2 * a + w) / (2 * w)) in *.
  set (m := (2 * a + w) mod (2 * w)) in *. clearbody q m.
  split; nia.
Qed.

Lemma nearest_tie_up_unique a b k k' :
  0 < b -> nearest_tie_up a b k -> nearest_tie_up a b k' -> k = k'.
Proof. unfold nearest_tie_up. intros Hb H H'. nia. Qed.

Lemma msPerChunk_nearest w k :
  nearest_tie_up 60000 (Z.max 1 w) k -> Pacing.msPerChunk w = Z.max 1 k.
Proof.
  intros Hk. unfold Pacing.msPerChunk. f_equal.
  apply (nearest_tie_up_unique 60000 (Z.max 1 w)); [lia| |exact Hk].
  apply Math_round_nearest_tie_up. lia.
Qed.

End PacingFacts.

(** ** The session machine *)

(** Reading a state cell through the writes in front of it. *)
Ltac cells :=
  cbn [position isPlaying intervalRef wpm charLimit isAngleMode pairGap
       pairPos isPairPlaying pairTimerRef isTraining trainingDir
       pairsSinceStepRef showGuide positionRef lastSyncedPosRef
       prevPairPosRef setPosition setIsPlaying set_intervalRef setWpm
       setCharLimit setIsAngleMode setPairGap setPairPos setIsPairPlaying
       set_pairTimerRef setIsTraining setTrainingDir
       set_pairsSinceStepRef setShowGuide set_positionRef
       set_lastSyncedPosRef set_prevPairPosRef stopInterval stopPairTimer
       negb andb orb].

Section SessionFacts.

Variable words : list string.
Variable isPeripheral : bool.

Local Abbreviation len := (List.length words).

(** *** Commit *)

Lemma when_preserves (P : App -> Prop) b f c :
  (forall c', P c' -> P (f c')) -> P c -> P (when b f c).
Proof. intros Hf Hc. destruct b; cbn; auto. Qed.

(** A property every effect of the render [r] keeps is kept by the
    pass. *)
Lemma pass_preserves (P : App -> Prop) p r :
  (forall c, P c -> P (positionRefEffect r c)) ->
  (forall c, P c -> P (angleModeEffect r c)) ->
  (forall c, P c -> P (pairTimerEffect r c)) ->
  (forall c, P c -> P (syncEffect words r c)) ->
  (forall c, P c -> P (trainingEffect r c)) ->
  (forall c, P c -> P (autoplayEffect words r c)) ->
  forall c, P c -> P (pass words p r c).
Proof.
  intros H0 H2 H3 H4 H5 H6 c Hc. unfold pass.
  repeat (apply when_preserves; [assumption|]). exact Hc.
Qed.

Lemma commit_preserves (P : App -> Prop) :
  (forall p r, P r -> P (pass words p r r)) ->
  forall n p r, P r -> P (commit words n p r).
Proof.
  intros Hpass n. induction n as [|n IH]; intros p r Hr; cbn; auto.
Qed.

Lemma commit_S n p r :
  commit words (S n) p r = commit words n r (pass words p r r).
Proof. reflexivity. Qed.

(** After a render that changed nothing, no effect runs. *)
Lemma pass_same r c : pass words r r c = c.
Proof.
  unfold pass.
  rewrite !Nat.eqb_refl, !Z.eqb_refl, !Bool.eqb_reflx. reflexivity.
Qed.

Lemma commit_same n st : commit words n st st = st.
Proof.
  induction n as [|n IH]; cbn; [reflexivity|]. now rewrite pass_same.
Qed.

(** *** The linear cursor *)

(** No effect starts linear playback. *)
Lemma pass_isPlaying_false p r c :
  isPlaying c = false -> isPlaying (pass words p r c) = false.
Proof.
  apply (pass_preserves (fun c => isPlaying c = false)); clear c; intros c Hc.
  - exact Hc.
  - unfold angleModeEffect. destruct (isAngleMode r); cbn; auto.
  - unfold pairTimerEffect. destruct (isAngleMode r), (isPairPlaying r); cbn; auto.
  - unfold syncEffect.
    destruct (isAngleMode r); cbn; auto.
    destruct (negb _); cbn; auto.
  - unfold trainingEffect, trainingGapStep.
    repeat match goal with
           | |- context [if ?b then _ else _] => destruct b
           end; cbn; auto.
  - unfold autoplayEffect. destruct (negb (isPlaying r) || _); cbn; auto.
Qed.

Lemma commit_isPlaying_false n p r :
  isPlaying r = false -> isPlaying (commit words n p r) = false.
Proof.
  apply (commit_preserves (fun c => isPlaying c = false)).
  intros p' r'. apply pass_isPlaying_false.
Qed.

Lemma handle_isPlaying_empty ev st :
  words = [] -> isPlaying st = false ->
  isPlaying (handle words isPeripheral ev st) = false.
Proof.
  intros Hw Hp. subst words.
  destruct ev as [e| | | | | | | | | | |newPos| | ]; cbn.
  - exact Hp.
  - unfold handleStartPause, togglePlay. destruct (isAngleMode st); cbn; auto.
  - exact Hp.
  - unfold toggleTraining.
    destruct (isTraining st), (isAngleMode st); cbn; auto.
  - exact Hp.
  - destruct (isAngleMode st); cbn; auto.
  - destruct (isAngleMode st); cbn; auto.
  - exact Hp.
  - exact Hp.
  - destruct (isAngleMode st); cbn; auto.
  - destruct (isAngleMode st); cbn; auto.
  - unfold handleSeek. destruct (isAngleMode st), isPeripheral; cbn; auto.
  - destruct (intervalRef st); cbn; auto.
  - destruct (pairTimerRef st); [|exact Hp]. unfold pairTick. cbn. exact Hp.
Qed.

(** Over an empty sequence the linear cursor never plays. *)
Lemma reachable_playing_nonempty st :
  reachable words isPeripheral st -> isPlaying st = true -> words <> [].
Proof.
  intros Hr. induction Hr as [pos rate limit|st ev Hr IH]; intros Hp Hw.
  - discriminate.
  - assert (Hst : isPlaying st = false).
    { destruct (isPlaying st); [now elim IH | reflexivity]. }
    unfold dispatch in Hp.
    rewrite commit_isPlaying_false in Hp; [discriminate|].
    now apply handle_isPlaying_empty.
Qed.

(** The interval callback at the end of the sequence. *)
Lemma tick_at_end st :
  len <= tickNext words isPeripheral (charLimit st) (position st) ->
  tick words isPeripheral st
  = st |> stopInterval |> setIsPlaying false |> setPosition (position st).
Proof.
  intros H. unfold tick. now destruct (Nat.leb_spec len (tickNext words isPeripheral (charLimit st) (position st))); [|lia].
Qed.

Lemma tick_position_inside st :
  position st < len -> position (tick words isPeripheral st) < len.
Proof.
  intros H. unfold tick.
  destruct (Nat.leb_spec len (tickNext words isPeripheral (charLimit st) (position st)));
    cbn; lia.
Qed.

(** In Linear mode a paused cursor whose clock is stopped stays so, at
    its position, through the effects. *)
Lemma pass_linear_paused pos p r c :
  isAngleMode r = false -> isPlaying r = false ->
  (isAngleMode c = false /\ isPlaying c = false /\
   intervalRef c = None /\ position c = pos) ->
  let c' := pass words p r c in
  isAngleMode c' = false /\ isPlaying c' = false /\
  intervalRef c' = None /\ position c' = pos.
Proof.
  intros Ha Hp. cbv zeta.
  apply (pass_preserves
           (fun c => isAngleMode c = false /\ isPlaying c = false /\
                     intervalRef c = None /\ position c = pos));
    clear c; intros c Hc.
  - exact Hc.
  - unfold angleModeEffect. rewrite Ha. exact Hc.
  - unfold pairTimerEffect. rewrite Ha. exact Hc.
  - unfold syncEffect. rewrite Ha. exact Hc.
  - unfold trainingEffect. rewrite Ha. exact Hc.
  - unfold autoplayEffect. rewrite Hp. cbn. tauto.
Qed.

Lemma commit_linear_paused pos n p r :
  isAngleMode r = false /\ isPlaying r = false /\
  intervalRef r = None /\ position r = pos ->
  let c' := commit words n p r in
  isAngleMode c' = false /\ isPlaying c' = false /\
  intervalRef c' = None /\ position c' = pos.
Proof.
  apply (commit_preserves
           (fun c => isAngleMode c = false /\ isPlaying c = false /\
                     intervalRef c = None /\ position c = pos)).
  clear p r. intros p r Hr. apply pass_linear_paused; tauto.
Qed.

(** *** Leaving Paired mode *)

Lemma pass_linear_idle p r c :
  isAngleMode r = false -> linear_idle c -> linear_idle (pass words p r c).
Proof.
  intros Ha. apply (pass_preserves linear_idle); clear c; intros c Hc.
  - exact Hc.
  - unfold angleModeEffect. rewrite Ha. unfold linear_idle in *. cbn. tauto.
  - unfold pairTimerEffect. rewrite Ha. exact Hc.
  - unfold syncEffect. rewrite Ha. exact Hc.
  - unfold trainingEffect. rewrite Ha. exact Hc.
  - unfold autoplayEffect. destruct (negb (isPlaying r) || _); cbn; exact Hc.
Qed.

Lemma pass_pair_timer_stopped p r c :
  isAngleMode r = false ->
  pairTimerRef c = None -> pairTimerRef (pass words p r c) = None.
Proof.
  intros Ha. apply (pass_preserves (fun c => pairTimerRef c = None));
    clear c; intros c Hc.
  - exact Hc.
  - unfold angleModeEffect. now rewrite Ha.
  - unfold pairTimerEffect. now rewrite Ha.
  - unfold syncEffect. now rewrite Ha.
  - unfold trainingEffect. now rewrite Ha.
  - unfold autoplayEffect. destruct (negb (isPlaying r) || _); cbn; exact Hc.
Qed.

(** The pass after Paired mode is left stops the pair interval. *)
Lemma pass_exit_stops_pair_timer p r :
  isAngleMode p = true -> isAngleMode r = false ->
  pairTimerRef (pass words p r r) = None.
Proof.
  intros Hp Ha. unfold pass.
  apply (when_preserves (fun c => pairTimerRef c = None)).
  { intros c Hc. unfold autoplayEffect.
    destruct (negb (isPlaying r) || _); cbn; exact Hc. }
  apply (when_preserves (fun c => pairTimerRef c = None)).
  { intros c Hc. unfold trainingEffect. now rewrite Ha. }
  apply (when_preserves (fun c => pairTimerRef c = None)).
  { intros c Hc. unfold syncEffect. now rewrite Ha. }
  apply (when_preserves (fun c => pairTimerRef c = None)).
  { intros c Hc. unfold pairTimerEffect. now rewrite Ha. }
  rewrite Hp, Ha. cbn [Bool.eqb negb when].
  unfold angleModeEffect. rewrite Ha. reflexivity.
Qed.

Lemma commit_linear_idle n p r :
  linear_idle r -> linear_idle (commit words n p r).
Proof.
  apply (commit_preserves linear_idle). clear p r. intros p r Hr.
  apply pass_linear_idle; [apply Hr | exact Hr].
Qed.

Lemma commit_pair_timer_stopped n p r :
  linear_idle r /\ pairTimerRef r = None ->
  pairTimerRef (commit words n p r) = None.
Proof.
  intros H.
  apply (commit_preserves (fun c => linear_idle c /\ pairTimerRef c = None));
    [|exact H].
  clear. intros p r [Hr Ht]. split.
  - apply pass_linear_idle; [apply Hr | exact Hr].
  - apply pass_pair_timer_stopped; [apply Hr | exact Ht].
Qed.

(** *** The pair cursor *)

Lemma even_floor pos : Nat.even (Nat.max 0 (pos - pos mod 2)) = true.
Proof.
  rewrite Nat.max_0_l.
  pose proof (Nat.div_mod_eq pos 2) as H.
  replace (pos - pos mod 2) with (2 * (pos / 2)) by lia.
  now rewrite Nat.even_mul.
Qed.

(** The index of the displayed pair is even whatever [pairPos] holds. *)
Lemma leftIndex_even st : Nat.even (leftIndex st) = true.
Proof. apply even_floor. Qed.

Lemma leftIndex_of_even st :
  Nat.even (pairPos st) = true -> leftIndex st = pairPos st.
Proof.
  intros H. unfold leftIndex. apply Nat.even_spec in H. destruct H as [k Hk].
  rewrite Hk, Nat.mul_comm, Nat.Div0.mod_mul. lia.
Qed.

(** Mode entry, the pair interval and the backward step keep [pairPos]
    even; the forward step does so over a sequence of even length. *)
Lemma angleModeEffect_even r c :
  isAngleMode r = true -> Nat.even (pairPos (angleModeEffect r c)) = true.
Proof. intros Ha. unfold angleModeEffect. rewrite Ha. cbn. apply even_floor. Qed.

Lemma pairTick_even st :
  Nat.even (pairPos st) = true -> Nat.even (pairPos (pairTick words st)) = true.
Proof.
  intros H. unfold pairTick. destruct (len <=? pairPos st + 2); cbn; [exact H|].
  now rewrite Nat.even_add, H.
Qed.

Lemma backward_step_even st :
  isAngleMode st = true -> Nat.even (pairPos st) = true ->
  Nat.even (pairPos (onKey words ArrowLeft st)) = true.
Proof.
  intros Ha H. unfold onKey. destruct (len =? 0); [exact H|].
  rewrite Ha. cbn [pairPos setPairPos setIsPairPlaying]. rewrite Nat.max_0_l.
  destruct (pairPos st) as [|[|n]]; try reflexivity; try discriminate.
  cbn [Nat.sub]. rewrite Nat.sub_0_r. exact H.
Qed.

Lemma forward_step_even st :
  Nat.even len = true ->
  isAngleMode st = true -> Nat.even (pairPos st) = true ->
  Nat.even (pairPos (onKey words ArrowRight st)) = true.
Proof.
  intros Hl Ha H. unfold onKey. destruct (len =? 0); [exact H|].
  rewrite Ha. cbn [pairPos setPairPos setIsPairPlaying]. rewrite Nat.max_0_l.
  destruct (Nat.min_spec (pairPos st + 2) (len - 2)) as [[_ ->]|[_ ->]].
  - now rewrite Nat.even_add, H.
  - destruct len as [|[|n]]; try reflexivity; try discriminate.
    cbn [Nat.sub]. rewrite Nat.sub_0_r. exact Hl.
Qed.

(** The sync effect moves the linear position to the index of the
    displayed pair. *)
Lemma syncEffect_position r c :
  isAngleMode r = true ->
  position (syncEffect words r c)
  = if (lastSyncedPosRef c =? Z.of_nat (leftIndex r))%Z then position c
    else Nat.min (leftIndex r) (len - 1).
Proof.
  intros Ha. unfold syncEffect. rewrite Ha. cbn [negb].
  destruct (lastSyncedPosRef c =? Z.of_nat (leftIndex r))%Z;
    cbn [negb]; [reflexivity|].
  unfold jumpToPosition. cbn [position setPosition].
  now rewrite !Nat.max_0_l.
Qed.

(** The commands of the linear cursor leave [pairPos] alone. *)
Lemma linear_commands_keep_pairPos st newPos :
  pairPos (togglePlay words st) = pairPos st /\
  pairPos (tick words isPeripheral st) = pairPos st /\
  pairPos (resetPosition st) = pairPos st /\
  pairPos (jumpToPosition words newPos st) = pairPos st /\
  pairPos (handleSeek words isPeripheral newPos st) = pairPos st.
Proof.
  unfold togglePlay, tick, handleSeek.
  destruct (0 <? len), (len <=? _), isPeripheral; cbn; auto.
Qed.

(** *** Training *)

(** A step of the gap lands within the training bounds from any gap. *)
Lemma trainingGapStep_bounds dir c :
  (TRAIN_MIN <= pairGap (trainingGapStep dir c) <= TRAIN_MAX)%Z.
Proof.
  unfold trainingGapStep, TRAIN_MIN, TRAIN_MAX, TRAIN_STEP.
  destruct (Z.leb_spec 550 (pairGap c + dir * 10)); cbn; [lia|].
  destruct (Z.leb_spec (pairGap c + dir * 10) 10); cbn; lia.
Qed.

End SessionFacts.

(** C5: the linear interval and the pair interval are both started with
    the period max(1, round(60000 / max(1, wpm))) milliseconds, where
    round(60000 / w) is the one integer [k] with
    [k - 1/2 <= 60000 / w < k + 1/2]; for every rate from 60 to 1200 the
    period is round(60000 / wpm), that integer, and at least 1; at 300
    words per minute it is 200, and at 64, where the quotient is 937.5,
    it is 938. *)
Theorem timers_tick_at_rate_interval :
  (forall (words : list string) (r c : App),
      isPlaying r = true -> words <> [] ->
      intervalRef (autoplayEffect words r c)
      = Some (Z.max 1 (Pacing.Math_round
                         (inject_Z 60000 / inject_Z (Z.max 1 (wpm r)))%Q))) /\
  (forall r c : App,
      pairTimerRef (startPairTimer r c)
      = Some (Z.max 1 (Pacing.Math_round
                         (inject_Z 60000 / inject_Z (Z.max 1 (wpm r)))%Q))) /\
  (forall rate : Z,
      (60 <= rate <= 1200)%Z ->
      Pacing.msPerChunk rate
      = Pacing.Math_round (inject_Z 60000 / inject_Z rate)%Q /\
      Pacing.msPerPair rate
      = Pacing.Math_round (inject_Z 60000 / inject_Z rate)%Q /\
      (1 <= Pacing.msPerChunk rate)%Z /\ (1 <= Pacing.msPerPair rate)%Z) /\
  Pacing.msPerChunk 300 = 200%Z /\ Pacing.msPerPair 300 = 200%Z /\
  (forall (words : list string) (r c : App) (k : Z),
      isPlaying r = true -> words <> [] ->
      nearest_tie_up 60000 (Z.max 1 (wpm r)) k ->
      intervalRef (autoplayEffect words r c) = Some (Z.max 1 k) /\
      pairTimerRef (startPairTimer r c) = Some (Z.max 1 k)) /\
  (forall rate : Z, exists k : Z, nearest_tie_up 60000 (Z.max 1 rate) k) /\
  (forall rate k : Z,
      (60 <= rate <= 1200)%Z ->
      (Pacing.msPerChunk rate = k <-> nearest_tie_up 60000 rate k) /\
      (Pacing.msPerPair rate = k <-> nearest_tie_up 60000 rate k)) /\
  Pacing.msPerChunk 64 = 938%Z /\ Pacing.msPerPair 64 = 938%Z /\
  Pacing.msPerChunk 70 = 857%Z /\ Pacing.msPerChunk 90 = 667%Z /\
  Pacing.msPerChunk 60 = 1000%Z /\ Pacing.msPerChunk 1200 = 50%Z.
Proof.
  assert (Hnear : forall rate k : Z,
             (60 <= rate <= 1200)%Z ->
             Pacing.msPerChunk rate = k <-> nearest_tie_up 60000 rate k).
  { intros rate k Hr.
    pose proof (msPerChunk_in_range rate Hr) as [H1 H2].
    assert (Hn : nearest_tie_up 60000 rate (Pacing.msPerChunk rate)).
    { rewrite H1. apply Math_round_nearest_tie_up. lia. }
    split.
    - intros <-. exact Hn.
    - intros Hk.
      apply (nearest_tie_up_unique 60000 rate); [lia | exact Hn | exact Hk]. }
  split; [|split; [|split; [|split; [|split; [|split; [|split; [|split]]]]]]].
  - intros words r c Hp Hw. unfold autoplayEffect. rewrite Hp.
    destruct words; [congruence|]. reflexivity.
  - reflexivity.
  - intros rate Hr. pose proof (msPerChunk_in_range rate Hr) as [H1 H2].
    change (Pacing.msPerPair rate) with (Pacing.msPerChunk rate). tauto.
  - reflexivity.
  - reflexivity.
  - intros words r c k Hp Hw Hk. split.
    + unfold autoplayEffect. rewrite Hp.
      destruct words; [congruence|]. cbn [List.length Nat.eqb negb orb].
      cells. now rewrite (msPerChunk_nearest _ k Hk).
    + unfold startPairTimer. cells.
      change (Pacing.msPerPair (wpm r)) with (Pacing.msPerChunk (wpm r)).
      now rewrite (msPerChunk_nearest _ k Hk).
  - intros rate. eexists. apply Math_round_nearest_tie_up. lia.
  - intros rate k Hr. split.
    + now apply Hnear.
    + change (Pacing.msPerPair rate) with (Pacing.msPerChunk rate).
      now apply Hnear.
  - repeat split; reflexivity.
Qed.

Lemma timers_tick_at_rate_interval_witness :
  (60 <= 64 <= 1200)%Z /\ nearest_tie_up 60000 64 938 /\
  Pacing.msPerChunk 64 = 938%Z /\
  Pacing.Math_round (inject_Z 60000 / inject_Z 600)%Q = 100%Z.
Proof.
  split; [lia|].
  assert (Hn : nearest_tie_up 60000 64 938) by (unfold nearest_tie_up; lia).
  split; [exact Hn|].
  destruct (proj1 (proj2 (proj2 timers_tick_at_rate_interval)) 600%Z ltac:(lia))
    as (H & _).
  destruct (proj1 (proj2 (proj2 (proj2 (proj2 (proj2 (proj2 (proj2
              timers_tick_at_rate_interval))))))) 64%Z 938%Z ltac:(lia))
    as ((_ & H64) & _).
  split; [exact (H64 Hn) | reflexivity].
Defined.

(** C6: on a tick of the linear interval whose next index is at or past
    the length of the sequence, the interval is cleared, playback becomes
    paused and the position stays where it was, also after the effects of
    the following renders; a position inside the sequence stays inside
    it.  Over the five sample words with limit 10, the tick at position 4
    computes 5, stops playback and leaves the position at 4. *)
Theorem tick_stops_at_end :
  (forall (words : list string) (isPeripheral : bool) (st : App),
      List.length words
      <= tickNext words isPeripheral (charLimit st) (position st) ->
      let st' := tick words isPeripheral st in
      intervalRef st' = None /\ isPlaying st' = false /\
      position st' = position st /\
      (isAngleMode st = false -> intervalRef st <> None ->
       let st'' := dispatch words isPeripheral IntervalFires st in
       intervalRef st'' = None /\ isPlaying st'' = false /\
       position st'' = position st)) /\
  (forall (words : list string) (isPeripheral : bool) (st : App),
      position st < List.length words ->
      position (tick words isPeripheral st) < List.length words) /\
  (let st := run sample false [ClickStartPause; IntervalFires; IntervalFires]
                 (mounted 0 300 10) in
   isPlaying st = true /\ position st = 4 /\
   tickNext sample false (charLimit st) (position st) = 5 /\
   let st' := dispatch sample false IntervalFires st in
   isPlaying st' = false /\ intervalRef st' = None /\ position st' = 4).
Proof.
  split; [|split].
  - intros words isPeripheral st Hend st'. subst st'.
    rewrite (tick_at_end words isPeripheral st Hend).
    split; [reflexivity|]. split; [reflexivity|]. split; [reflexivity|].
    intros Ha Hi st''. subst st''. unfold dispatch. cbn [handle].
    destruct (intervalRef st) as [ms|] eqn:Hms; [|congruence].
    rewrite (tick_at_end words isPeripheral st Hend).
    destruct (commit_linear_paused words (position st) 4 st
                (st |> stopInterval |> setIsPlaying false
                    |> setPosition (position st)))
      as (_ & H2 & H3 & H4); [cells; auto|].
    auto.
  - intros words isPeripheral st. apply tick_position_inside.
  - vm_compute. repeat split; reflexivity.
Qed.

Lemma tick_stops_at_end_witness :
  List.length sample
  <= tickNext sample false (charLimit (mounted 4 300 10))
       (position (mounted 4 300 10)) /\
  position (tick sample false (mounted 4 300 10)) = 4 /\
  isPlaying (tick sample false (mounted 4 300 10)) = false.
Proof.
  split; [vm_compute; lia|].
  destruct (proj1 tick_stops_at_end sample false (mounted 4 300 10)
              ltac:(vm_compute; lia)) as (_ & H2 & H3 & _).
  split; [exact H3 | exact H2].
Defined.

(** The transitions of [togglePlay]: in every state of a session it takes
    a paused cursor to playing exactly when the word sequence is not
    empty and takes a playing cursor to paused; over an empty sequence
    [togglePlay], the space key and the Start button in Linear mode leave
    the whole state as it is. *)
Theorem togglePlay_transitions (words : list string) (isPeripheral : bool) (st : App) :
  reachable words isPeripheral st ->
  (isPlaying st = false ->
   (isPlaying (togglePlay words st) = true <-> words <> [])) /\
  (isPlaying st = true -> isPlaying (togglePlay words st) = false) /\
  (words = [] ->
   togglePlay words st = st /\
   dispatch words isPeripheral (KeyDown Space) st = st /\
   (isAngleMode st = false ->
    dispatch words isPeripheral ClickStartPause st = st)).
Proof.
  intros Hr. split; [|split].
  - intros Hp. unfold togglePlay. destruct words as [|w ws]; cbn.
    + rewrite Hp. split; [discriminate | congruence].
    + rewrite Hp. split; [discriminate | reflexivity].
  - intros Hp. pose proof (reachable_playing_nonempty _ _ _ Hr Hp) as Hw.
    unfold togglePlay. destruct words as [|w ws]; [congruence|].
    cbn. now rewrite Hp.
  - intros ->. split; [reflexivity|]. split.
    + unfold dispatch. cbn [handle onKey List.length Nat.eqb].
      apply commit_same.
    + intros Ha. unfold dispatch. cbn [handle]. unfold handleStartPause.
      rewrite Ha. unfold togglePlay. cbn [List.length Nat.ltb Nat.leb].
      apply commit_same.
Qed.

Lemma togglePlay_transitions_witness :
  reachable sample false (mounted 0 300 25) /\
  isPlaying (togglePlay sample (mounted 0 300 25)) = true.
Proof.
  split; [apply reach_mounted|].
  destruct (togglePlay_transitions sample false (mounted 0 300 25)
              (reach_mounted sample false 0 300 25)) as (H & _).
  apply H; [reflexivity | discriminate].
Defined.

(** C9 fails on the code: the Start button in Paired mode has no guard on
    the length of the sequence.  Over the empty sequence, in Paired mode,
    it starts pair playback and the pair interval; [togglePlay] and the
    space key, which are guarded, leave the same state as it is.  The
    first firing of the interval then stops pair playback again. *)
Theorem start_button_over_empty_starts_pair_playback :
  let st0 := run [] false [ClickAngleMode] (mounted 0 300 25) in
  let st1 := dispatch [] false ClickStartPause st0 in
  reachable [] false st0 /\
  isAngleMode st0 = true /\ isPairPlaying st0 = false /\
  pairTimerRef st0 = None /\
  handleStartPause [] st0 = setIsPairPlaying true st0 /\
  isPairPlaying st1 = true /\ pairTimerRef st1 = Some 200%Z /\
  st1 <> st0 /\
  togglePlay [] st0 = st0 /\
  dispatch [] false (KeyDown Space) st0 = st0 /\
  dispatch [] false PairIntervalFires st1 = st0.
Proof.
  cbv zeta. split.
  - cbn [run fold_left]. apply reach_dispatch. apply reach_mounted.
  - vm_compute. repeat split; try reflexivity. discriminate.
Qed.

(** C10: in every state in which Training is on, the Training button
    turns Training off, stops pair playback and leaves Paired mode; the
    pair interval is cleared. *)
Theorem toggleTraining_off_leaves_paired
        (words : list string) (isPeripheral : bool) (st : App) :
  isTraining st = true ->
  let st' := dispatch words isPeripheral ClickTraining st in
  isTraining (toggleTraining st) = false /\
  isPairPlaying (toggleTraining st) = false /\
  isAngleMode (toggleTraining st) = false /\
  isTraining st' = false /\ isPairPlaying st' = false /\
  isAngleMode st' = false /\
  (isAngleMode st = true -> pairTimerRef st' = None).
Proof.
  intros Ht st'. subst st'. unfold dispatch. cbn [handle].
  assert (Hidle : linear_idle (toggleTraining st)).
  { unfold toggleTraining, linear_idle. rewrite Ht. cells. auto. }
  destruct Hidle as (H1 & H2 & H3).
  split; [exact H1|]. split; [exact H2|]. split; [exact H3|].
  destruct (commit_linear_idle words 4 st (toggleTraining st))
    as (H4 & H5 & H6); [unfold linear_idle; auto|].
  split; [exact H4|]. split; [exact H5|]. split; [exact H6|].
  intros Ha. rewrite commit_S.
  apply commit_pair_timer_stopped. split.
  - apply pass_linear_idle; [exact H3 | unfold linear_idle; auto].
  - now apply pass_exit_stops_pair_timer.
Qed.

Lemma toggleTraining_off_leaves_paired_witness :
  isTraining (run sample false [ClickTraining] (mounted 3 300 25)) = true /\
  isAngleMode
    (dispatch sample false ClickTraining
       (run sample false [ClickTraining] (mounted 3 300 25))) = false.
Proof.
  split; [vm_compute; reflexivity|].
  destruct (toggleTraining_off_leaves_paired sample false
              (run sample false [ClickTraining] (mounted 3 300 25))
              ltac:(vm_compute; reflexivity))
    as (_ & _ & _ & _ & _ & H & _).
  exact H.
Defined.

(** C2 fails on the code: over a sequence of odd length the forward step
    of the keyboard clamps to [length - 2], an odd index.  Over three
    words, Paired mode entered at position 0 holds the pair position 0,
    and the right arrow moves it to 1. *)
Theorem pair_forward_step_reaches_odd :
  let st0 := run three false [ClickAngleMode] (mounted 0 300 25) in
  let st1 := dispatch three false (KeyDown ArrowRight) st0 in
  reachable three false st1 /\
  isAngleMode st0 = true /\ pairPos st0 = 0 /\
  isAngleMode st1 = true /\ pairPos st1 = 1 /\
  Nat.even (pairPos st1) = false /\
  onKey three ArrowRight st0
  = st0 |> setIsPairPlaying false
        |> setPairPos (Nat.min (0 + 2) (Nat.max 0 (3 - 2))).
Proof.
  cbv zeta. split.
  - apply reach_dispatch. cbn [run fold_left].
    apply reach_dispatch. apply reach_mounted.
  - vm_compute. repeat split; reflexivity.
Qed.

(** C8 fails on the code at the same state: the pair position has moved
    from 0 to 1 in Paired mode and the linear position is still 0, the
    index of the displayed pair. *)
Theorem sync_follows_left_index_not_pair_position :
  let st0 := run three false [ClickAngleMode] (mounted 0 300 25) in
  let st1 := dispatch three false (KeyDown ArrowRight) st0 in
  isAngleMode st0 = true /\ isAngleMode st1 = true /\
  pairPos st0 <> pairPos st1 /\
  pairPos st1 = 1 /\ position st1 = 0 /\ leftIndex st1 = 0 /\
  position st1 <> pairPos st1.
Proof.
  vm_compute. repeat split; try reflexivity; discriminate.
Qed.

(** ** More on the chunk formatter *)

Section ChunkMore.

Variable words : list string.

Local Abbreviation len := (List.length words).
Local Abbreviation wLen := (Chunk.wLen words).

(** What the backward loop returns within the sequence. *)
Lemma backward_loop_spec charLimit fuel prev total :
  prev <= len -> prev <= fuel ->
  exists r,
    Chunk.backward_loop words charLimit fuel prev total = Some r /\
    r <= prev /\
    (r < prev -> total + cost (slice words r prev) <= charLimit) /\
    (0 < r -> charLimit < total + cost (slice words r prev) + wLen (r - 1)).
Proof.
  revert prev total.
  induction fuel as [|fuel IH]; intros prev total Hle Hfuel;
    cbn [Chunk.backward_loop].
  - exists prev. rewrite slice_nil, cost_nil. repeat split; lia.
  - destruct (Nat.ltb_spec 0 prev) as [Hpos|Hzero].
    2:{ exists prev. rewrite slice_nil, cost_nil. repeat split; lia. }
    rewrite (nth_error_nth' words "") by lia.
    change (String.length (nth (prev - 1) words "") + 1) with (wLen (prev - 1)).
    destruct (Nat.ltb_spec charLimit (total + wLen (prev - 1))) as [Hover|Hfit].
    { exists prev. rewrite slice_nil, cost_nil. repeat split; lia. }
    destruct (IH (prev - 1) (total + wLen (prev - 1)) ltac:(lia) ltac:(lia))
      as (r & Hr & H1 & H2 & H3).
    exists r. split; [exact Hr|]. split; [lia|].
    assert (Hc : cost (slice words r prev)
                 = cost (slice words r (prev - 1)) + wLen (prev - 1)).
    { replace prev with (prev - 1 + 1) at 1 by lia.
      apply cost_slice_snoc. lia. }
    rewrite Hc. split.
    + intros _. destruct (Nat.eq_dec r (prev - 1)) as [->|Hne].
      * rewrite slice_nil, cost_nil. lia.
      * specialize (H2 ltac:(lia)). lia.
    + intros Hr0. specialize (H3 Hr0). lia.
Qed.

Lemma string_length_append (s1 s2 : string) :
  String.length (s1 ++ s2)%string = String.length s1 + String.length s2.
Proof. induction s1 as [|a s1 IH]; cbn; [reflexivity | now rewrite IH]. Qed.

(** The length of words joined by single spaces. *)
Lemma concat_length (ws : list string) :
  ws <> [] -> String.length (String.concat " " ws) + 1 = cost ws.
Proof.
  induction ws as [|w ws IH]; [congruence|]. intros _.
  destruct ws as [|w' ws].
  - cbn. unfold cost. cbn. lia.
  - specialize (IH ltac:(discriminate)).
    change (String.concat " " (w :: w' :: ws))
      with (w ++ " " ++ String.concat " " (w' :: ws))%string.
    rewrite !string_length_append.
    change (cost (w :: w' :: ws))
      with (String.length w + 1 + cost (w' :: ws)).
    rewrite <- IH. cbn [String.length]. lia.
Qed.

Lemma forward_loop_mono limit limit' fuel next total :
  limit <= limit' ->
  Chunk.forward_loop words limit fuel next total
  <= Chunk.forward_loop words limit' fuel next total.
Proof.
  intros Hl. revert next total.
  induction fuel as [|fuel IH]; intros next total; cbn [Chunk.forward_loop];
    [lia|].
  destruct (next <? len); [|lia].
  destruct (Nat.ltb_spec limit (total + wLen next)) as [Hover|Hfit].
  - destruct (limit' <? total + wLen next); [lia|].
    pose proof (forward_loop_ge words limit' fuel (next + 1) (total + wLen next)).
    lia.
  - destruct (Nat.ltb_spec limit' (total + wLen next)); [lia|]. apply IH.
Qed.

Lemma getNextChunkStart_bounds charLimit pos :
  pos <= len ->
  Nat.min len (pos + 1) <= Chunk.getNextChunkStart words charLimit pos <= len.
Proof.
  intros Hle. destruct (Nat.eq_dec pos len) as [->|Hne].
  - rewrite getNextChunkStart_past_end by lia. lia.
  - destruct (getNextChunkStart_spec words charLimit pos _ ltac:(lia) eq_refl)
      as (H1 & H2 & _). lia.
Qed.

Lemma iter_getNextChunkStart charLimit k pos :
  pos <= len ->
  Nat.min len (pos + k)
  <= Nat.iter k (Chunk.getNextChunkStart words charLimit) pos <= len.
Proof.
  intros Hle. induction k as [|k IH].
  { change (Nat.iter 0 (Chunk.getNextChunkStart words charLimit) pos) with pos.
    lia. }
  rewrite Nat.iter_succ.
  pose proof (getNextChunkStart_bounds charLimit
                (Nat.iter k (Chunk.getNextChunkStart words charLimit) pos)
                ltac:(lia)).
  lia.
Qed.

End ChunkMore.

(** X1: the backward step throws (reads [length] of [undefined]) exactly
    from a position past the end of the sequence; from every position
    within it, the end included, it returns. *)
Theorem getPrevChunkStart_throws_iff_past_end
        (words : list string) (charLimit pos : nat) :
  Chunk.getPrevChunkStart words charLimit pos = None
  <-> List.length words < pos.
Proof.
  split.
  - intros Hnone. destruct (Nat.le_gt_cases pos (List.length words)) as [Hle|Hgt];
      [|exact Hgt].
    destruct (getPrevChunkStart_le words charLimit pos Hle) as (prev & Hp & _).
    congruence.
  - intros Hgt. unfold Chunk.getPrevChunkStart.
    destruct pos as [|pos]; [lia|]. cbn [Chunk.backward_loop Nat.ltb Nat.leb].
    replace (nth_error words (S pos - 1)) with (@None string); [reflexivity|].
    symmetry. apply nth_error_None. lia.
Qed.

(** X2: from a position [0 < pos <= length] the backward step returns an
    index strictly before [pos]: the single word in front of [pos] when
    that word alone exceeds the limit, and otherwise the start of the
    longest run of words ending at [pos] whose total of length + 1 stays
    within the limit. *)
Theorem getPrevChunkStart_longest_run
        (words : list string) (charLimit pos : nat) :
  0 < pos <= List.length words ->
  exists prev,
    Chunk.getPrevChunkStart words charLimit pos = Some prev /\
    prev < pos /\
    ((charLimit < String.length (nth (pos - 1) words "") + 1 /\ prev = pos - 1) \/
     (cost (slice words prev pos) <= charLimit /\
      (0 < prev ->
       charLimit < cost (slice words prev pos)
                   + (String.length (nth (prev - 1) words "") + 1)))).
Proof.
  intros [Hpos Hle].
  destruct (backward_loop_spec words charLimit pos pos 0 Hle (Nat.le_refl _))
    as (r & Hr & H1 & H2 & H3).
  unfold Chunk.getPrevChunkStart. rewrite Hr.
  destruct (Nat.eqb_spec r pos) as [->|Hne].
  - exists (pos - 1). rewrite Nat.max_0_l. split; [reflexivity|]. split; [lia|].
    left. split; [|reflexivity].
    specialize (H3 Hpos). rewrite slice_nil, cost_nil in H3.
    unfold Chunk.wLen in H3. lia.
  - exists r. split; [reflexivity|]. split; [lia|]. right.
    split; [apply (H2 ltac:(lia))|].
    intros Hr0. specialize (H3 Hr0). unfold Chunk.wLen in H3. lia.
Qed.

Lemma getPrevChunkStart_longest_run_witness :
  0 < 4 <= List.length sample /\
  Chunk.getPrevChunkStart sample 10 4 = Some 2.
Proof.
  split; [cbn; lia|].
  destruct (getPrevChunkStart_longest_run sample 10 4 ltac:(cbn; lia))
    as (prev & Hp & _).
  vm_compute in Hp. vm_compute. reflexivity.
Defined.

(** X3: paging forward reaches the end: from a position within the
    sequence, [length - pos] forward steps arrive exactly at the length,
    whatever the limit, and no number of steps goes past it. *)
Theorem forward_steps_reach_end
        (words : list string) (charLimit pos k : nat) :
  pos <= List.length words ->
  Nat.iter (List.length words - pos)
    (Chunk.getNextChunkStart words charLimit) pos = List.length words /\
  Nat.iter k (Chunk.getNextChunkStart words charLimit) pos <= List.length words.
Proof.
  intros Hle. split.
  - pose proof (iter_getNextChunkStart words charLimit
                  (List.length words - pos) pos Hle). lia.
  - apply (iter_getNextChunkStart words charLimit k pos Hle).
Qed.

Lemma forward_steps_reach_end_witness :
  0 <= List.length sample /\
  Nat.iter 5 (Chunk.getNextChunkStart sample 10) 0 = 5.
Proof.
  split; [lia|].
  exact (proj1 (forward_steps_reach_end sample 10 0 0 ltac:(lia))).
Defined.

(** X4: a chunk that starts inside the sequence with a first word that
    fits is strictly shorter than the character limit; a first word that
    does not fit is shown alone and whole. *)
Theorem chunk_text_length (words : list string) (charLimit start : nat) :
  start < List.length words ->
  let text := Chunk.getChunkText words charLimit start in
  (String.length (nth start words "") + 1 <= charLimit ->
   String.length text < charLimit) /\
  (charLimit < String.length (nth start words "") + 1 ->
   text = nth start words "").
Proof.
  intros Hlt text. subst text. rewrite getChunkText_inside by exact Hlt.
  destruct (getNextChunkStart_spec words charLimit start _ Hlt eq_refl)
    as (H1 & H2 & H3).
  set (n := Chunk.getNextChunkStart words charLimit start) in *.
  assert (Hne : slice words start n <> []).
  { rewrite (slice_cons words start n H1). discriminate. }
  pose proof (concat_length (slice words start n) Hne) as Hlen.
  split.
  - intros Hfit. destruct H3 as [[Hover _]|[Hcost _]].
    + unfold Chunk.wLen in Hover. lia.
    + lia.
  - intros Hover. destruct H3 as [[_ Hn]|[Hcost _]].
    + rewrite Hn, (slice_cons words start (start + 1)) by lia.
      now rewrite slice_nil.
    + rewrite (cost_slice_cons words start n H1) in Hcost.
      unfold Chunk.wLen in Hcost. lia.
Qed.

Lemma chunk_text_length_witness :
  0 < List.length sample /\
  String.length (Chunk.getChunkText sample 10 0) < 10.
Proof.
  split; [cbn; lia|].
  apply (proj1 (chunk_text_length sample 10 0 ltac:(cbn; lia))).
  cbn; lia.
Defined.

(** X5: a larger character limit never shortens a chunk: the next chunk
    start is monotone in the limit. *)
Theorem getNextChunkStart_monotone
        (words : list string) (limit limit' pos : nat) :
  limit <= limit' ->
  Chunk.getNextChunkStart words limit pos
  <= Chunk.getNextChunkStart words limit' pos.
Proof.
  intros Hl. unfold Chunk.getNextChunkStart.
  pose proof (forward_loop_mono words limit limit'
                (List.length words - pos) pos 0 Hl) as Hm.
  pose proof (forward_loop_ge words limit (List.length words - pos) pos 0) as H1.
  pose proof (forward_loop_ge words limit' (List.length words - pos) pos 0) as H2.
  destruct (Nat.le_gt_cases (List.length words) pos) as [Hge|Hlt].
  - replace (List.length words - pos) with 0 in * by lia.
    cbn [Chunk.forward_loop]. lia.
  - pose proof (forward_loop_spec words limit' (List.length words - pos) pos 0
                  _ (Nat.le_refl _) eq_refl) as (_ & H3 & _).
    destruct (Nat.eqb_spec (Chunk.forward_loop words limit
                              (List.length words - pos) pos 0) pos);
      destruct (Nat.eqb_spec (Chunk.forward_loop words limit'
                                (List.length words - pos) pos 0) pos); lia.
Qed.

Lemma getNextChunkStart_monotone_witness :
  10 <= 16 /\
  Chunk.getNextChunkStart sample 10 0 <= Chunk.getNextChunkStart sample 16 0.
Proof. split; [lia | apply getNextChunkStart_monotone; lia]. Defined.

(** ** Effects, pass by pass *)

(** An effect leaves alone the cells it does not write. *)
Ltac frame :=
  unfold positionRefEffect, angleModeEffect, pairTimerEffect, syncEffect,
    trainingEffect, trainingGapStep, autoplayEffect, startPairTimer,
    jumpToPosition;
  repeat match goal with
         | |- context [if ?b then _ else _] => destruct b
         end;
  cells; reflexivity.

Ltac framed H := etransitivity; [|exact H]; frame.

Section PassFacts.

Variable words : list string.
Variable isPeripheral : bool.

Local Abbreviation len := (List.length words).

Lemma when_gated (P : App -> Prop) b f c :
  (b = true -> forall c', P c' -> P (f c')) -> P c -> P (when b f c).
Proof. intros Hf Hc. destruct b; cbn; auto. Qed.

Lemma differs_nat a b : negb (a =? b) = true -> a <> b.
Proof. destruct (Nat.eqb_spec a b); [discriminate | auto]. Qed.

Lemma differs_Z a b : negb (a =? b)%Z = true -> a <> b.
Proof. destruct (Z.eqb_spec a b); [discriminate | auto]. Qed.

Lemma differs_bool a b : negb (Bool.eqb a b) = true -> a <> b.
Proof. destruct a, b; cbn; congruence. Qed.

(** A pass keeps what every effect that runs in it keeps; an effect runs
    only when one of its dependencies differs between the two renders. *)
Lemma pass_gated (P : App -> Prop) p r :
  (position p <> position r -> forall c, P c -> P (positionRefEffect r c)) ->
  (isAngleMode p <> isAngleMode r ->
   forall c, P c -> P (angleModeEffect r c)) ->
  (isPairPlaying p <> isPairPlaying r \/ isAngleMode p <> isAngleMode r \/
   wpm p <> wpm r ->
   forall c, P c -> P (pairTimerEffect r c)) ->
  (isAngleMode p <> isAngleMode r \/ leftIndex p <> leftIndex r ->
   forall c, P c -> P (syncEffect words r c)) ->
  (pairPos p <> pairPos r \/ isAngleMode p <> isAngleMode r \/
   isTraining p <> isTraining r \/ trainingDir p <> trainingDir r ->
   forall c, P c -> P (trainingEffect r c)) ->
  (isPlaying p <> isPlaying r \/ wpm p <> wpm r \/
   charLimit p <> charLimit r ->
   forall c, P c -> P (autoplayEffect words r c)) ->
  forall c, P c -> P (pass words p r c).
Proof.
  intros H0 H2 H3 H4 H5 H6 c Hc. unfold pass.
  apply when_gated.
  { intros Hb. apply H6. rewrite !orb_true_iff in Hb.
    destruct Hb as [[Hb|Hb]|Hb];
      [left; now apply differs_bool | right; left; now apply differs_Z
       | right; right; now apply differs_nat]. }
  apply when_gated.
  { intros Hb. apply H5. rewrite !orb_true_iff in Hb.
    destruct Hb as [[[Hb|Hb]|Hb]|Hb];
      [left; now apply differs_nat | right; left; now apply differs_bool
       | right; right; left; now apply differs_bool
       | right; right; right; now apply differs_Z]. }
  apply when_gated.
  { intros Hb. apply H4. rewrite !orb_true_iff in Hb.
    destruct Hb as [Hb|Hb];
      [left; now apply differs_bool | right; now apply differs_nat]. }
  apply when_gated.
  { intros Hb. apply H3. rewrite !orb_true_iff in Hb.
    destruct Hb as [[Hb|Hb]|Hb];
      [left; now apply differs_bool | right; left; now apply differs_bool
       | right; right; now apply differs_Z]. }
  apply when_gated.
  { intros Hb. apply H2. now apply differs_bool. }
  apply when_gated.
  { intros Hb. apply H0. now apply differs_nat. }
  exact Hc.
Qed.

(** What no effect writes. *)
Lemma pass_isAngleMode p r c : isAngleMode (pass words p r c) = isAngleMode c.
Proof.
  apply (pass_gated (fun c' => isAngleMode c' = isAngleMode c) p r);
    try reflexivity; intros _ c' H; framed H.
Qed.

Lemma pass_wpm p r c : wpm (pass words p r c) = wpm c.
Proof.
  apply (pass_gated (fun c' => wpm c' = wpm c) p r);
    try reflexivity; intros _ c' H; framed H.
Qed.

Lemma pass_charLimit p r c : charLimit (pass words p r c) = charLimit c.
Proof.
  apply (pass_gated (fun c' => charLimit c' = charLimit c) p r);
    try reflexivity; intros _ c' H; framed H.
Qed.

(** What only the mode effect writes. *)
Lemma pass_same_mode p r c :
  isAngleMode p = isAngleMode r ->
  let c' := pass words p r c in
  isPlaying c' = isPlaying c /\ isPairPlaying c' = isPairPlaying c /\
  isTraining c' = isTraining c /\ pairPos c' = pairPos c.
Proof.
  intros Hm.
  apply (pass_gated
           (fun c' => isPlaying c' = isPlaying c /\
                      isPairPlaying c' = isPairPlaying c /\
                      isTraining c' = isTraining c /\ pairPos c' = pairPos c)
           p r); try tauto; try congruence;
    intros _ c' (H1 & H2 & H3 & H4);
    (split; [framed H1|]); (split; [framed H2|]); (split; [framed H3|]);
    framed H4.
Qed.

(** The position moves only with the displayed pair or the mode. *)
Lemma pass_position_settled p r c :
  isAngleMode p = isAngleMode r -> leftIndex p = leftIndex r ->
  position (pass words p r c) = position c.
Proof.
  intros Hm Hl.
  apply (pass_gated (fun c' => position c' = position c) p r);
    try reflexivity; try tauto; intros _ c' H; framed H.
Qed.

End PassFacts.

Section SettleFacts.

Variable words : list string.
Variable isPeripheral : bool.

Local Abbreviation len := (List.length words).

(** The pass after a change of mode: the mode effect runs, whatever ran
    before it. *)
Lemma pass_mode_change (Q : App -> Prop) p r c :
  isAngleMode p <> isAngleMode r ->
  (forall c0, Q (angleModeEffect r c0)) ->
  (forall c0, Q c0 -> Q (pairTimerEffect r c0)) ->
  (forall c0, Q c0 -> Q (syncEffect words r c0)) ->
  (forall c0, Q c0 -> Q (trainingEffect r c0)) ->
  (forall c0, Q c0 -> Q (autoplayEffect words r c0)) ->
  Q (pass words p r c).
Proof.
  intros Hm H2 H3 H4 H5 H6. unfold pass.
  do 4 (apply when_preserves; [assumption|]).
  replace (negb (Bool.eqb (isAngleMode p) (isAngleMode r))) with true
    by (destruct (isAngleMode p), (isAngleMode r); cbn; congruence).
  apply H2.
Qed.

Lemma pass_modes p r :
  (isAngleMode p = isAngleMode r -> modes_ok r) ->
  modes_ok (pass words p r r).
Proof.
  intros Hr. destruct (bool_dec (isAngleMode p) (isAngleMode r)) as [Hm|Hm].
  - destruct (Hr Hm) as [H1 H2].
    destruct (pass_same_mode words p r r Hm) as (Hp & _ & Ht & _).
    unfold modes_ok. rewrite Hp, Ht, pass_isAngleMode. auto.
  - assert (Hq : isTraining (pass words p r r) = true -> isAngleMode r = true)
      by (apply (pass_mode_change
                   (fun c => isTraining c = true -> isAngleMode r = true));
          [exact Hm | | | | |]; unfold angleModeEffect; intros c0;
          [destruct (isAngleMode r); cells; congruence | | | |];
          intros H Ht; apply H; revert Ht;
          match goal with |- ?a = true -> ?b = true =>
            replace a with b; [auto|frame] end).
    assert (Hq' : isAngleMode r = true -> isPlaying (pass words p r r) = false)
      by (apply (pass_mode_change
                   (fun c => isAngleMode r = true -> isPlaying c = false));
          [exact Hm | | | | |]; intros c0;
          [unfold angleModeEffect; destruct (isAngleMode r); cells; congruence
          | | | |];
          intros H Ha; rewrite <- (H Ha); frame).
    unfold modes_ok. rewrite pass_isAngleMode. auto.
Qed.

Lemma same_bool a b : negb (Bool.eqb a b) = false -> a = b.
Proof. destruct a, b; cbn; congruence. Qed.

Lemma same_nat a b : negb (a =? b) = false -> a = b.
Proof. destruct (Nat.eqb_spec a b); [auto | discriminate]. Qed.

Lemma same_Z a b : negb (a =? b)%Z = false -> a = b.
Proof. destruct (Z.eqb_spec a b); [auto | discriminate]. Qed.

(** After a pass the interval is the one of the render, if it was so
    whenever the autoplay effect does not run. *)
Lemma pass_interval p r :
  (isPlaying p = isPlaying r -> wpm p = wpm r -> charLimit p = charLimit r ->
   intervalRef r = interval_of words r) ->
  intervalRef (pass words p r r) = interval_of words r.
Proof.
  intros Hr. unfold pass.
  match goal with
  | |- intervalRef (when ?b _ ?x) = _ => set (flag := b); set (c5 := x)
  end.
  assert (H5 : intervalRef c5 = intervalRef r).
  { subst c5.
    do 5 (apply (when_preserves (fun c => intervalRef c = intervalRef r));
          [intros c' H; framed H|]).
    reflexivity. }
  destruct flag eqn:Hflag; cbn [when].
  - unfold autoplayEffect, interval_of.
    destruct (negb (isPlaying r) || (len =? 0)); cells; reflexivity.
  - subst flag. rewrite !orb_false_iff in Hflag.
    destruct Hflag as [[H1 H2] H3].
    rewrite H5. apply Hr;
      [now apply same_bool | now apply same_Z | now apply same_nat].
Qed.

(** The same for the pair interval. *)
Lemma pass_pair_interval p r :
  (isAngleMode p = isAngleMode r -> isPairPlaying p = isPairPlaying r ->
   wpm p = wpm r -> pairTimerRef r = pair_interval_of r) ->
  pairTimerRef (pass words p r r) = pair_interval_of r.
Proof.
  intros Hr. unfold pass.
  do 3 (apply (when_preserves (fun c => pairTimerRef c = pair_interval_of r));
        [intros c' H; framed H|]).
  match goal with
  | |- pairTimerRef (when ?b _ ?x) = _ => set (flag := b); set (c2 := x)
  end.
  destruct flag eqn:Hflag; cbn [when].
  - unfold pairTimerEffect, pair_interval_of, startPairTimer.
    destruct (isAngleMode r), (isPairPlaying r); cells; reflexivity.
  - subst flag. rewrite !orb_false_iff in Hflag.
    destruct Hflag as [[H1 H2] H3].
    subst c2. rewrite H2. cbn [when].
    rewrite <- Hr;
      [|now apply same_bool | now apply same_bool | now apply same_Z].
    unfold when. destruct (negb (position p =? position r)); [frame|reflexivity].
Qed.

(** The position follows the displayed pair. *)
Lemma pass_sync p r :
  (isAngleMode p = true ->
   lastSyncedPosRef r = Z.of_nat (leftIndex p) /\
   position r = Nat.min (leftIndex p) (len - 1)) ->
  isAngleMode r = true ->
  lastSyncedPosRef (pass words p r r) = Z.of_nat (leftIndex r) /\
  position (pass words p r r) = Nat.min (leftIndex r) (len - 1).
Proof.
  intros Hp Ha.
  assert (Hjump : forall c, lastSyncedPosRef c <> Z.of_nat (leftIndex r) ->
            lastSyncedPosRef (syncEffect words r c) = Z.of_nat (leftIndex r) /\
            position (syncEffect words r c) = Nat.min (leftIndex r) (len - 1)).
  { intros c Hne. unfold syncEffect. rewrite Ha. cbn [negb].
    destruct (Z.eqb_spec (lastSyncedPosRef c) (Z.of_nat (leftIndex r)));
      [contradiction|]. cbn [negb]. unfold jumpToPosition. cells.
    now rewrite !Nat.max_0_l. }
  assert (H3 : forall b c, lastSyncedPosRef (when b (pairTimerEffect r) c)
                           = lastSyncedPosRef c /\
                           position (when b (pairTimerEffect r) c) = position c).
  { intros b c. unfold when. destruct b; split; try reflexivity; frame. }
  assert (H0 : forall b c, lastSyncedPosRef (when b (positionRefEffect r) c)
                           = lastSyncedPosRef c /\
                           position (when b (positionRefEffect r) c) = position c).
  { intros b c. unfold when. destruct b; split; try reflexivity; frame. }
  unfold pass.
  do 2 (apply (when_preserves
                 (fun c => lastSyncedPosRef c = Z.of_nat (leftIndex r) /\
                           position c = Nat.min (leftIndex r) (len - 1)));
        [intros c' [H1 H2]; split; [framed H1 | framed H2]|]).
  rewrite Ha. destruct (isAngleMode p) eqn:Hpa; cbn [Bool.eqb negb orb when].
  - (* the mode is unchanged: the mode effect does not run *)
    destruct (Hp eq_refl) as [Hs Hpos].
    match goal with
    | |- context [when _ (syncEffect words r) ?x] => set (c3 := x)
    end.
    assert (Hc3 : lastSyncedPosRef c3 = lastSyncedPosRef r /\
                  position c3 = position r).
    { subst c3.
      match goal with
      | |- context [when ?b (pairTimerEffect r) ?c] =>
          destruct (H3 b c) as [-> ->]
      end.
      apply H0. }
    destruct Hc3 as [Hl3 Hp3].
    destruct (Nat.eqb_spec (leftIndex p) (leftIndex r)) as [He|Hne];
      cbn [negb when].
    + rewrite Hl3, Hp3, Hs, Hpos, He. auto.
    + apply Hjump. rewrite Hl3, Hs. lia.
  - (* the mode has just been entered *)
    apply Hjump.
    match goal with
    | |- lastSyncedPosRef (when ?b (pairTimerEffect r) ?c) <> _ =>
        destruct (H3 b c) as [-> _]
    end.
    unfold angleModeEffect. rewrite Ha. cells. lia.
Qed.

(** The position ref follows the position. *)
Lemma pass_positionRef p r :
  positionRef r = position p ->
  positionRef (pass words p r r) = position r.
Proof.
  intros Hr. unfold pass.
  do 5 (apply (when_preserves (fun c => positionRef c = position r));
        [intros c' H; framed H|]).
  unfold when, positionRefEffect.
  destruct (Nat.eqb_spec (position p) (position r)); cbn [negb]; cells; congruence.
Qed.

(** What a handler leaves for the first pass. *)
Lemma handle_follows ev st :
  settled words st -> follows words st (handle words isPeripheral ev st).
Proof.
  unfold follows.
  unfold settled, modes_ok, interval_of, pair_interval_of.
  intros (Hm & Hi & Hp & Hr & Hs). cbv zeta.
  destruct ev as [e| | | | | | | | | | |newPos| |]; [destruct e|..];
    unfold handle, onKey, handleStartPause, togglePlay, toggleTraining,
      handleSeek, tick, pairTick, jumpToPosition, resetPosition.
  all: revert Hm Hi Hp Hr Hs.
  all: destruct (isPlaying st) eqn:Epl, (isAngleMode st) eqn:Ean,
         (isPairPlaying st) eqn:Epp, (isTraining st) eqn:Etr;
    cbn [negb andb orb].
  all: repeat match goal with
              | |- context [match ?x with Some _ => _ | None => _ end] =>
                  destruct x eqn:?
              | |- context [if (?a =? ?b) then _ else _] =>
                  destruct (Nat.eqb_spec a b)
              | |- context [if (?a <? ?b) then _ else _] =>
                  destruct (Nat.ltb_spec a b)
              | |- context [if (?a <=? ?b) then _ else _] =>
                  destruct (Nat.leb_spec a b)
              | |- context [if isPeripheral then _ else _] =>
                  destruct isPeripheral
              end.
  all: cells; rewrite ?Epl, ?Ean, ?Epp, ?Etr; cbn [negb andb orb].
  all: intros Hm Hi Hp Hr Hs.
  all: repeat split; intros; try congruence; try tauto;
    try (apply Hs; reflexivity).
  all: try (destruct Hm as [Hm1 Hm2]; try (specialize (Hm1 eq_refl));
            try (specialize (Hm2 eq_refl)); congruence).
Qed.

Lemma pass_follows p r :
  follows words p r -> follows words r (pass words p r r).
Proof.
  intros (H1 & H2 & H3 & H4 & H5). unfold follows.
  split; [intros _; now apply pass_modes|].
  split.
  { intros E1 E2 E3. rewrite (pass_interval p r H2).
    unfold interval_of. now rewrite E1, E2. }
  split.
  { intros E1 E2 E3. rewrite (pass_pair_interval p r H3).
    unfold pair_interval_of. now rewrite E1, E2, E3. }
  split; [now apply pass_sync | now apply pass_positionRef].
Qed.

Lemma follows_settled p r :
  follows words p r ->
  isAngleMode p = isAngleMode r -> isPlaying p = isPlaying r ->
  isPairPlaying p = isPairPlaying r -> wpm p = wpm r ->
  charLimit p = charLimit r -> pairPos p = pairPos r ->
  position p = position r ->
  settled words r.
Proof.
  intros (H1 & H2 & H3 & H4 & H5) Ea Ep Epp Ew Ec Epos Eposn.
  unfold settled. split; [auto|]. split; [auto|]. split; [auto|].
  split; [congruence|]. intros Ha.
  replace (leftIndex r) with (leftIndex p) by (unfold leftIndex; now rewrite Epos).
  apply H4. congruence.
Qed.

(** Every command leads from a settled state to a settled state: four
    passes are enough for the effects to catch up. *)
Lemma dispatch_settled ev st :
  settled words st -> settled words (dispatch words isPeripheral ev st).
Proof.
  intros Hst. pose proof (handle_follows ev st Hst) as F0.
  unfold dispatch. set (r0 := handle words isPeripheral ev st) in *.
  rewrite !commit_S. cbn [commit].
  set (r1 := pass words st r0 r0).
  set (r2 := pass words r0 r1 r1).
  set (r3 := pass words r1 r2 r2).
  set (r4 := pass words r2 r3 r3).
  pose proof (pass_follows st r0 F0) as F1. fold r1 in F1.
  pose proof (pass_follows r0 r1 F1) as F2. fold r2 in F2.
  pose proof (pass_follows r1 r2 F2) as F3. fold r3 in F3.
  pose proof (pass_follows r2 r3 F3) as F4. fold r4 in F4.
  assert (A2 : isAngleMode r1 = isAngleMode r2)
    by (symmetry; apply pass_isAngleMode).
  assert (A3 : isAngleMode r2 = isAngleMode r3)
    by (symmetry; apply pass_isAngleMode).
  assert (A4 : isAngleMode r3 = isAngleMode r4)
    by (symmetry; apply pass_isAngleMode).
  destruct (pass_same_mode words r1 r2 r2 A2) as (_ & _ & _ & P3). fold r3 in P3.
  destruct (pass_same_mode words r2 r3 r3 A3) as (Q1 & Q2 & _ & Q4).
  fold r4 in Q1, Q2, Q4.
  apply (follows_settled r3 r4 F4); try congruence.
  - symmetry. apply pass_wpm.
  - symmetry. apply pass_charLimit.
  - symmetry. apply pass_position_settled; [exact A3|].
    unfold leftIndex. now rewrite P3.
Qed.

Lemma run_settled evs st :
  settled words st -> settled words (run words isPeripheral evs st).
Proof.
  revert st. induction evs as [|ev evs IH]; intros st Hst; cbn [run fold_left];
    [exact Hst|].
  apply IH. now apply dispatch_settled.
Qed.

Lemma mounted_settled pos rate limit : settled words (mounted pos rate limit).
Proof.
  unfold settled, modes_ok, interval_of, pair_interval_of. cbn.
  repeat split; congruence.
Qed.

End SettleFacts.

(** ** Invariants of the session *)

Section SessionMore.

Variable words : list string.
Variable isPeripheral : bool.

Local Abbreviation len := (List.length words).

Ltac handler_cases st :=
  unfold handle, onKey, handleStartPause, togglePlay, toggleTraining,
    handleSeek, tick, pairTick, jumpToPosition, resetPosition;
  repeat match goal with
         | |- context [match ?x with Some _ => _ | None => _ end] =>
             destruct x eqn:?
         | |- context [if (?a =? ?b) then _ else _] =>
             destruct (Nat.eqb_spec a b)
         | |- context [if (?a <? ?b) then _ else _] =>
             destruct (Nat.ltb_spec a b)
         | |- context [if (?a <=? ?b) then _ else _] =>
             destruct (Nat.leb_spec a b)
         | |- context [if negb ?x then _ else _] =>
             destruct x eqn:?; cbn [negb]
         | |- context [if ?x then _ else _] =>
             destruct x eqn:?
         end;
  cells.

Lemma run_preserves (P : App -> Prop) :
  (forall ev st, P st -> P (dispatch words isPeripheral ev st)) ->
  forall evs st, P st -> P (run words isPeripheral evs st).
Proof.
  intros Hd evs. induction evs as [|ev evs IH]; intros st Hst;
    cbn [run fold_left]; [exact Hst|].
  apply IH. now apply Hd.
Qed.

Lemma dispatch_preserves (P : App -> Prop) :
  (forall ev st, P st -> P (handle words isPeripheral ev st)) ->
  (forall p r c, P r -> P c -> P (pass words p r c)) ->
  forall ev st, P st -> P (dispatch words isPeripheral ev st).
Proof.
  intros Hh Hp ev st Hst. unfold dispatch.
  apply (commit_preserves words P); [|now apply Hh].
  intros p r Hr. now apply Hp.
Qed.

(** *** The cursors stay inside the sequence *)

Lemma pass_in_range p r c :
  in_range words r -> in_range words c -> in_range words (pass words p r c).
Proof.
  unfold in_range. intros (R1 & R2 & R3).
  apply (pass_preserves words
           (fun c => position c < len /\ positionRef c < len /\ pairPos c < len));
    clear c; intros c (C1 & C2 & C3).
  - unfold positionRefEffect. cells. auto.
  - unfold angleModeEffect. destruct (isAngleMode r); cells; repeat split; auto.
    pose proof (Nat.Div0.mod_le (positionRef c) 2). lia.
  - unfold pairTimerEffect, startPairTimer.
    destruct (isAngleMode r), (isPairPlaying r); cells; auto.
  - unfold syncEffect, jumpToPosition.
    destruct (isAngleMode r); cells; auto.
    destruct (lastSyncedPosRef c =? Z.of_nat (leftIndex r))%Z; cells; auto.
    repeat split; auto. lia.
  - unfold trainingEffect, trainingGapStep.
    repeat match goal with
           | |- context [if ?b then _ else _] => destruct b
           end; cells; auto.
  - unfold autoplayEffect.
    destruct (negb (isPlaying r) || (len =? 0)); cells; auto.
Qed.

Lemma handle_in_range ev st :
  in_range words st -> in_range words (handle words isPeripheral ev st).
Proof.
  unfold in_range. intros (H1 & H2 & H3).
  destruct ev as [e| | | | | | | | | | |newPos| |]; [destruct e|..];
    handler_cases st; repeat split; auto; try lia.
Qed.

(** *** The settings stay within the bounds of their controls *)

Lemma pass_settings p r c : settings_ok c -> settings_ok (pass words p r c).
Proof.
  unfold settings_ok.
  apply (pass_preserves words
           (fun c => (20 <= wpm c <= 1200)%Z /\ 10 <= charLimit c <= 100 /\
                     (0 <= pairGap c <= 1200)%Z));
    clear c; intros c (C1 & C2 & C3).
  - unfold positionRefEffect. cells. auto.
  - unfold angleModeEffect. destruct (isAngleMode r); cells; auto.
  - unfold pairTimerEffect, startPairTimer.
    destruct (isAngleMode r), (isPairPlaying r); cells; auto.
  - unfold syncEffect, jumpToPosition.
    destruct (isAngleMode r); cells; auto.
    destruct (lastSyncedPosRef c =? Z.of_nat (leftIndex r))%Z; cells; auto.
  - unfold trainingEffect.
    destruct (negb (isAngleMode r && isTraining r)); cells; auto.
    destruct (prevPairPosRef c <? pairPos r); cells; auto.
    destruct (TRAIN_EVERY_PAIRS <=? pairsSinceStepRef c + 1); cells; auto.
    pose proof (trainingGapStep_bounds (trainingDir r)
                  (set_pairsSinceStepRef 0
                     (set_pairsSinceStepRef (pairsSinceStepRef c + 1) c))) as Hb.
    unfold TRAIN_MIN, TRAIN_MAX in Hb.
    repeat split; try lia;
      unfold trainingGapStep;
      repeat match goal with
             | |- context [if ?b then _ else _] => destruct b
             end; cells; lia.
  - unfold autoplayEffect.
    destruct (negb (isPlaying r) || (len =? 0)); cells; auto.
Qed.

Lemma handle_settings ev st :
  settings_ok st -> settings_ok (handle words isPeripheral ev st).
Proof.
  unfold settings_ok. intros (H1 & H2 & H3).
  destruct ev as [e| | | | | | | | | | |newPos| |]; [destruct e|..];
    handler_cases st; repeat split; auto;
    unfold clamp, WPM_MIN, WPM_MAX, WPM_STEP, TRAIN_MIN; lia.
Qed.

Lemma msPerChunk_bounds rate :
  (20 <= rate <= 1200)%Z ->
  (50 <= Pacing.msPerChunk rate <= 3000)%Z.
Proof.
  intros Hr. unfold Pacing.msPerChunk.
  replace (Z.max 1 rate) with rate by lia.
  rewrite Math_round_quotient by lia.
  assert (50 <= (2 * 60000 + rate) / (2 * rate))%Z
    by (apply Z.div_le_lower_bound; lia).
  assert ((2 * 60000 + rate) / (2 * rate) < 3001)%Z
    by (apply Z.div_lt_upper_bound; lia).
  lia.
Qed.

(** *** The pair position over a sequence of even length *)

Lemma pass_even p r c :
  Nat.even (pairPos c) = true -> Nat.even (pairPos (pass words p r c)) = true.
Proof.
  apply (pass_preserves words (fun c => Nat.even (pairPos c) = true));
    clear c; intros c Hc.
  - unfold positionRefEffect. cells. auto.
  - unfold angleModeEffect. destruct (isAngleMode r); cells; auto.
    apply even_floor.
  - unfold pairTimerEffect, startPairTimer.
    destruct (isAngleMode r), (isPairPlaying r); cells; auto.
  - unfold syncEffect, jumpToPosition.
    destruct (isAngleMode r); cells; auto.
    destruct (lastSyncedPosRef c =? Z.of_nat (leftIndex r))%Z; cells; auto.
  - unfold trainingEffect, trainingGapStep.
    repeat match goal with
           | |- context [if ?b then _ else _] => destruct b
           end; cells; auto.
  - unfold autoplayEffect.
    destruct (negb (isPlaying r) || (len =? 0)); cells; auto.
Qed.

Lemma even_plus_two n : Nat.even n = true -> Nat.even (n + 2) = true.
Proof. intros H. now rewrite Nat.even_add, H. Qed.

Lemma even_minus_two n : Nat.even n = true -> Nat.even (n - 2) = true.
Proof.
  intros H. destruct n as [|[|n]]; try reflexivity; try discriminate.
  cbn [Nat.sub]. now rewrite Nat.sub_0_r.
Qed.

Lemma handle_even ev st :
  Nat.even len = true -> Nat.even (pairPos st) = true ->
  Nat.even (pairPos (handle words isPeripheral ev st)) = true.
Proof.
  intros Hl Hp.
  destruct ev as [e| | | | | | | | | | |newPos| |]; [destruct e|..];
    handler_cases st; auto using even_plus_two, even_minus_two.
  all: rewrite ?Nat.max_0_l.
  all: try (apply even_minus_two; assumption).
  destruct (Nat.min_spec (pairPos st + 2) (len - 2)) as [[_ ->]|[_ ->]];
    auto using even_plus_two, even_minus_two.
Qed.

(** *** Passes that follow a command *)

Lemma commit_isAngleMode n p r :
  isAngleMode (commit words n p r) = isAngleMode r.
Proof.
  revert p r. induction n as [|n IH]; intros p r; [reflexivity|].
  rewrite commit_S, IH. apply pass_isAngleMode.
Qed.

(** Without a change of mode the effects write none of these cells. *)
Lemma commit_same_mode n p r :
  isAngleMode p = isAngleMode r ->
  let c := commit words n p r in
  isPlaying c = isPlaying r /\ isPairPlaying c = isPairPlaying r /\
  isTraining c = isTraining r /\ pairPos c = pairPos r.
Proof.
  revert p r. induction n as [|n IH]; intros p r Hm; [cbn; auto|].
  cbv zeta. rewrite commit_S.
  destruct (pass_same_mode words p r r Hm) as (H1 & H2 & H3 & H4).
  destruct (IH r (pass words p r r)) as (K1 & K2 & K3 & K4).
  { symmetry. apply pass_isAngleMode. }
  repeat split; congruence.
Qed.

(** In Linear mode no effect moves the position. *)
Lemma pass_position_linear p r c :
  isAngleMode r = false -> position (pass words p r c) = position c.
Proof.
  intros Ha.
  apply (pass_preserves words (fun c' => position c' = position c));
    try reflexivity; intros c' H; try (framed H).
  unfold syncEffect. now rewrite Ha.
Qed.

Lemma commit_position_linear n p r :
  isAngleMode r = false -> position (commit words n p r) = position r.
Proof.
  revert p r. induction n as [|n IH]; intros p r Ha; [reflexivity|].
  rewrite commit_S, IH by (now rewrite pass_isAngleMode).
  now apply pass_position_linear.
Qed.

(** The pass that enters or leaves Paired mode, from the mode effect on. *)
Lemma pass_mode_change_from (Q : App -> Prop) p r c :
  isAngleMode p <> isAngleMode r ->
  Q (angleModeEffect r
       (when (negb (position p =? position r)) (positionRefEffect r) c)) ->
  (forall c0, Q c0 -> Q (pairTimerEffect r c0)) ->
  (forall c0, Q c0 -> Q (syncEffect words r c0)) ->
  (forall c0, Q c0 -> Q (trainingEffect r c0)) ->
  (forall c0, Q c0 -> Q (autoplayEffect words r c0)) ->
  Q (pass words p r c).
Proof.
  intros Hm H2 H3 H4 H5 H6. unfold pass.
  do 4 (apply when_preserves; [assumption|]).
  replace (negb (Bool.eqb (isAngleMode p) (isAngleMode r))) with true
    by (destruct (isAngleMode p), (isAngleMode r); cbn; congruence).
  exact H2.
Qed.

(** Entering Paired mode: the pair position is the even index at or
    below the position ref, and pair playback is off. *)
Lemma pass_enter_paired p r :
  isAngleMode p = false -> isAngleMode r = true ->
  positionRef r = position r ->
  let c := pass words p r r in
  pairPos c = position r - (position r) mod 2 /\ isPairPlaying c = false /\
  isTraining c = isTraining r.
Proof.
  intros Hp Ha Href. cbv zeta.
  apply (pass_mode_change_from
           (fun c => pairPos c = position r - (position r) mod 2 /\
                     isPairPlaying c = false /\ isTraining c = isTraining r)).
  - congruence.
  - unfold angleModeEffect, when, positionRefEffect. rewrite Ha.
    destruct (negb (position p =? position r)); cells;
      rewrite ?Href, Nat.max_0_l; auto.
  - intros c0 (H1 & H2 & H3).
    split; [framed H1|]. split; [framed H2 | framed H3].
  - intros c0 (H1 & H2 & H3).
    split; [framed H1|]. split; [framed H2 | framed H3].
  - intros c0 (H1 & H2 & H3).
    split; [framed H1|]. split; [framed H2 | framed H3].
  - intros c0 (H1 & H2 & H3).
    split; [framed H1|]. split; [framed H2 | framed H3].
Qed.

Lemma run_in_range evs st :
  in_range words st -> in_range words (run words isPeripheral evs st).
Proof.
  apply (run_preserves (in_range words)).
  apply (dispatch_preserves (in_range words));
    [apply handle_in_range | apply pass_in_range].
Qed.

Lemma run_settings evs st :
  settings_ok st -> settings_ok (run words isPeripheral evs st).
Proof.
  apply (run_preserves settings_ok).
  apply (dispatch_preserves settings_ok);
    [apply handle_settings | intros p r c _; apply pass_settings].
Qed.

Lemma run_even evs st :
  Nat.even len = true -> Nat.even (pairPos st) = true ->
  Nat.even (pairPos (run words isPeripheral evs st)) = true.
Proof.
  intros He.
  apply (run_preserves (fun s => Nat.even (pairPos s) = true)).
  apply (dispatch_preserves (fun s => Nat.even (pairPos s) = true));
    [intros ev s; now apply handle_even | intros p r c _; apply pass_even].
Qed.

End SessionMore.

(** X6: in every state of a session the linear interval runs exactly
    while the cursor plays over a non-empty sequence, the pair interval
    exactly while Paired mode is on and the pair cursor plays, each with
    the period of the current rate; the two never run together. *)
Theorem one_interval_at_a_time
        (words : list string) (isPeripheral : bool) (evs : list Event)
        (pos : nat) (rate : Z) (limit : nat) :
  let st := run words isPeripheral evs (mounted pos rate limit) in
  intervalRef st
  = (if negb (isPlaying st) || (List.length words =? 0) then None
     else Some (Pacing.msPerChunk (wpm st))) /\
  pairTimerRef st
  = (if isAngleMode st && isPairPlaying st
     then Some (Pacing.msPerPair (wpm st)) else None) /\
  (intervalRef st = None \/ pairTimerRef st = None).
Proof.
  intros st.
  destruct (run_settled words isPeripheral evs _
              (mounted_settled words pos rate limit))
    as ((_ & Hm) & Hi & Hp & _). fold st in Hm, Hi, Hp.
  split; [exact Hi|]. split; [exact Hp|].
  rewrite Hi, Hp. unfold interval_of, pair_interval_of.
  destruct (isAngleMode st); [rewrite (Hm eq_refl); now left | now right].
Qed.

(** X7: in every state of a session Training is on only in Paired mode,
    and the linear cursor does not play in Paired mode. *)
Theorem training_within_paired_within_paused
        (words : list string) (isPeripheral : bool) (evs : list Event)
        (pos : nat) (rate : Z) (limit : nat) :
  let st := run words isPeripheral evs (mounted pos rate limit) in
  (isTraining st = true -> isAngleMode st = true) /\
  (isAngleMode st = true -> isPlaying st = false).
Proof.
  intros st.
  destruct (run_settled words isPeripheral evs _
              (mounted_settled words pos rate limit)) as (Hm & _).
  exact Hm.
Qed.

(** X8: in every state of a session that starts inside the sequence, in
    Paired mode the linear position is the index of the displayed pair,
    [pairPos] rounded down to an even index, and the position ref holds
    the position; over a sequence of even length the position is
    [pairPos] itself. *)
Theorem paired_position_is_left_index
        (words : list string) (isPeripheral : bool) (evs : list Event)
        (pos : nat) (rate : Z) (limit : nat) :
  pos < List.length words ->
  let st := run words isPeripheral evs (mounted pos rate limit) in
  positionRef st = position st /\
  (isAngleMode st = true ->
   position st = leftIndex st /\
   position st = pairPos st - (pairPos st) mod 2 /\
   (Nat.even (List.length words) = true -> position st = pairPos st)).
Proof.
  intros Hpos st.
  destruct (run_settled words isPeripheral evs _
              (mounted_settled words pos rate limit))
    as (_ & _ & _ & Hr & Hs). fold st in Hr, Hs.
  assert (Hin : in_range words st).
  { apply run_in_range. unfold in_range. cbn. lia. }
  split; [exact Hr|]. intros Ha. destruct (Hs Ha) as [_ Hp].
  destruct Hin as (_ & _ & H3).
  assert (Hl : leftIndex st <= pairPos st).
  { unfold leftIndex. lia. }
  split; [lia|]. split; [unfold leftIndex in *; lia|].
  intros He.
  assert (Hev : Nat.even (pairPos st) = true)
    by (apply run_even; [exact He | reflexivity]).
  rewrite <- (leftIndex_of_even st Hev). lia.
Qed.

Lemma paired_position_is_left_index_witness :
  0 < List.length three /\
  position (run three false [ClickAngleMode; KeyDown ArrowRight]
              (mounted 0 300 25)) = 0.
Proof.
  split; [cbn; lia|].
  destruct (paired_position_is_left_index three false
              [ClickAngleMode; KeyDown ArrowRight] 0 300 25 ltac:(cbn; lia))
    as (_ & H).
  destruct (H ltac:(vm_compute; reflexivity)) as (H1 & _).
  rewrite H1. vm_compute. reflexivity.
Defined.

(** X9: in every state of a session that starts inside the sequence the
    position, the pair position and the index of the displayed pair are
    inside the sequence: the left word shown is a word of the text. *)
Theorem cursors_stay_inside
        (words : list string) (isPeripheral : bool) (evs : list Event)
        (pos : nat) (rate : Z) (limit : nat) :
  pos < List.length words ->
  let st := run words isPeripheral evs (mounted pos rate limit) in
  position st < List.length words /\ pairPos st < List.length words /\
  leftIndex st < List.length words /\
  nth_error words (leftIndex st) = Some (wLeft words st).
Proof.
  intros Hpos st.
  assert (Hin : in_range words st).
  { apply run_in_range. unfold in_range. cbn. lia. }
  destruct Hin as (H1 & _ & H3).
  assert (Hl : leftIndex st < List.length words) by (unfold leftIndex; lia).
  repeat split; auto. unfold wLeft. now apply nth_error_nth'.
Qed.

Lemma cursors_stay_inside_witness :
  0 < List.length sample /\
  position (run sample false
              [KeyDown ArrowRight; KeyDown ArrowRight; KeyDown ArrowRight;
               KeyDown ArrowRight] (mounted 0 300 10)) < List.length sample.
Proof.
  split; [cbn; lia|].
  apply (cursors_stay_inside sample false
           [KeyDown ArrowRight; KeyDown ArrowRight; KeyDown ArrowRight;
            KeyDown ArrowRight] 0 300 10).
  cbn; lia.
Defined.

(** X10: from settings within the bounds of their controls, every state
    of a session has a rate within [20, 1200], a character limit within
    [10, 100] and a gap within [0, 1200]; the period of the timers is then
    between 50 and 3000 milliseconds. *)
Theorem settings_stay_within_bounds
        (words : list string) (isPeripheral : bool) (evs : list Event)
        (pos : nat) (rate : Z) (limit : nat) :
  (20 <= rate <= 1200)%Z -> 10 <= limit <= 100 ->
  let st := run words isPeripheral evs (mounted pos rate limit) in
  (20 <= wpm st <= 1200)%Z /\ 10 <= charLimit st <= 100 /\
  (0 <= pairGap st <= 1200)%Z /\
  (50 <= Pacing.msPerChunk (wpm st) <= 3000)%Z /\
  (50 <= Pacing.msPerPair (wpm st) <= 3000)%Z.
Proof.
  intros Hr Hl st.
  assert (Hs : settings_ok st).
  { apply run_settings. unfold settings_ok. cbn. lia. }
  destruct Hs as (H1 & H2 & H3).
  pose proof (msPerChunk_bounds (wpm st) H1) as Hb.
  repeat split; try lia; apply Hb.
Qed.

Lemma settings_stay_within_bounds_witness :
  (20 <= 300 <= 1200)%Z /\ 10 <= 25 <= 100 /\
  (20 <= wpm (run sample false [KeyDown ArrowUp; ClickIncWpm]
                (mounted 0 300 25)) <= 1200)%Z.
Proof.
  split; [lia|]. split; [lia|].
  apply (settings_stay_within_bounds sample false
           [KeyDown ArrowUp; ClickIncWpm] 0 300 25); lia.
Defined.

(** X11: over a sequence of even length the pair position is even in
    every state of a session. *)
Theorem pair_position_even_over_even_length
        (words : list string) (isPeripheral : bool) (evs : list Event)
        (pos : nat) (rate : Z) (limit : nat) :
  Nat.even (List.length words) = true ->
  Nat.even (pairPos (run words isPeripheral evs (mounted pos rate limit)))
  = true.
Proof.
  intros He. apply run_even; [exact He | reflexivity].
Qed.

Lemma pair_position_even_over_even_length_witness :
  Nat.even (List.length ["a"; "b"; "c"; "d"]) = true /\
  Nat.even
    (pairPos (run ["a"; "b"; "c"; "d"] false
                [ClickAngleMode; KeyDown ArrowRight; KeyDown ArrowRight]
                (mounted 1 300 25))) = true.
Proof.
  split; [reflexivity|].
  apply pair_position_even_over_even_length. reflexivity.
Defined.

(** ** Commands, one at a time *)

Section CommandFacts.

Variable words : list string.
Variable isPeripheral : bool.

Local Abbreviation len := (List.length words).

Lemma commit_wpm n p r : wpm (commit words n p r) = wpm r.
Proof.
  revert p r. induction n as [|n IH]; intros p r; [reflexivity|].
  rewrite commit_S, IH. apply pass_wpm.
Qed.

(** Leaving Paired mode: Training and pair playback are switched off. *)
Lemma pass_exit_paired p r :
  isAngleMode p = true -> isAngleMode r = false ->
  let c := pass words p r r in
  isTraining c = false /\ isPairPlaying c = false /\
  isPlaying c = isPlaying r /\ pairPos c = pairPos r.
Proof.
  intros Hp Ha. cbv zeta.
  apply (pass_mode_change_from words
           (fun c => isTraining c = false /\ isPairPlaying c = false /\
                     isPlaying c = isPlaying r /\ pairPos c = pairPos r)).
  - congruence.
  - unfold angleModeEffect, when, positionRefEffect. rewrite Ha.
    destruct (negb (position p =? position r)); cells; auto.
  - intros c0 (H1 & H2 & H3 & H4).
    split; [framed H1|]. split; [framed H2|]. split; [framed H3 | framed H4].
  - intros c0 (H1 & H2 & H3 & H4).
    split; [framed H1|]. split; [framed H2|]. split; [framed H3 | framed H4].
  - intros c0 (H1 & H2 & H3 & H4).
    split; [framed H1|]. split; [framed H2|]. split; [framed H3 | framed H4].
  - intros c0 (H1 & H2 & H3 & H4).
    split; [framed H1|]. split; [framed H2|]. split; [framed H3 | framed H4].
Qed.

Lemma even_floor_left n :
  Nat.max 0 ((n - n mod 2) - (n - n mod 2) mod 2) = n - n mod 2.
Proof.
  pose proof (Nat.div_mod_eq n 2) as H.
  replace (n - n mod 2) with (2 * (n / 2)) by lia.
  rewrite Nat.mul_comm, Nat.Div0.mod_mul. lia.
Qed.

End CommandFacts.

(** X12: from a settled state in Linear mode with the position inside
    the sequence, the mode button enters Paired mode with the pair
    position at the even index at or below the position, the position
    moved onto it, linear playback and pair playback paused and no
    interval running. *)
Theorem entering_paired_mode
        (words : list string) (isPeripheral : bool) (st : App) :
  settled words st -> isAngleMode st = false ->
  position st < List.length words ->
  let st' := dispatch words isPeripheral ClickAngleMode st in
  isAngleMode st' = true /\
  pairPos st' = position st - (position st) mod 2 /\
  position st' = pairPos st' /\
  isPlaying st' = false /\ isPairPlaying st' = false /\
  intervalRef st' = None /\ pairTimerRef st' = None.
Proof.
  intros Hst Ha Hpos st'.
  pose proof (dispatch_settled words isPeripheral ClickAngleMode st Hst) as Hs'.
  fold st' in Hs'.
  assert (Hfacts : isAngleMode st' = true /\
                   pairPos st' = position st - (position st) mod 2 /\
                   isPairPlaying st' = false).
  { subst st'. unfold dispatch. cbn [handle]. rewrite Ha. cbn [negb].
    set (r0 := setIsAngleMode true st).
    rewrite commit_isAngleMode. split; [reflexivity|].
    rewrite commit_S.
    destruct (pass_enter_paired words st r0 Ha eq_refl) as (H1 & H2 & _).
    { destruct Hst as (_ & _ & _ & Hr & _). exact Hr. }
    destruct (commit_same_mode words 3 r0 (pass words st r0 r0))
      as (_ & K2 & _ & K4).
    { symmetry. apply pass_isAngleMode. }
    split; [rewrite K4; exact H1 | rewrite K2; exact H2]. }
  destruct Hfacts as (F1 & F2 & F3).
  destruct Hs' as ((_ & Hm) & Hi & Hp & _ & Hsync).
  destruct (Hsync F1) as (_ & Hposn).
  assert (Hleft : leftIndex st' = pairPos st').
  { unfold leftIndex. rewrite F2. apply even_floor_left. }
  split; [exact F1|]. split; [exact F2|].
  split; [rewrite Hposn, Hleft, F2; lia|].
  split; [now apply Hm|]. split; [exact F3|].
  split.
  - rewrite Hi. unfold interval_of. now rewrite (Hm F1).
  - rewrite Hp. unfold pair_interval_of. now rewrite F3, andb_false_r.
Qed.

Lemma entering_paired_mode_witness :
  settled sample (mounted 3 300 25) /\
  pairPos (dispatch sample false ClickAngleMode (mounted 3 300 25)) = 2 /\
  position (dispatch sample false ClickAngleMode (mounted 3 300 25)) = 2.
Proof.
  split; [apply mounted_settled|].
  destruct (entering_paired_mode sample false (mounted 3 300 25)
              (mounted_settled sample 3 300 25) eq_refl ltac:(cbn; lia))
    as (_ & H2 & H3 & _).
  rewrite H3. split; exact H2.
Defined.

(** X13: from a settled state in Paired mode, the mode button returns to
    Linear mode with Training and pair playback off, no interval
    running, linear playback still paused, and the position where the
    pair cursor left it. *)
Theorem leaving_paired_mode
        (words : list string) (isPeripheral : bool) (st : App) :
  settled words st -> isAngleMode st = true ->
  let st' := dispatch words isPeripheral ClickAngleMode st in
  isAngleMode st' = false /\ isTraining st' = false /\
  isPairPlaying st' = false /\ isPlaying st' = false /\
  intervalRef st' = None /\ pairTimerRef st' = None /\
  position st' = position st /\ pairPos st' = pairPos st.
Proof.
  intros Hst Ha st'.
  pose proof (dispatch_settled words isPeripheral ClickAngleMode st Hst) as Hs'.
  fold st' in Hs'.
  assert (Hplay : isPlaying st = false) by (apply Hst; exact Ha).
  assert (Hfacts : isAngleMode st' = false /\ isTraining st' = false /\
                   isPairPlaying st' = false /\ isPlaying st' = false /\
                   position st' = position st /\ pairPos st' = pairPos st).
  { subst st'. unfold dispatch. cbn [handle]. rewrite Ha. cbn [negb].
    set (r0 := setIsAngleMode false st).
    rewrite commit_isAngleMode. split; [reflexivity|].
    rewrite (commit_position_linear words 4 st r0 eq_refl).
    rewrite commit_S.
    destruct (pass_exit_paired words st r0 Ha eq_refl) as (H1 & H2 & H3 & H4).
    destruct (commit_same_mode words 3 r0 (pass words st r0 r0))
      as (K1 & K2 & K3 & K4).
    { symmetry. apply pass_isAngleMode. }
    rewrite K1, K2, K3, K4, H1, H2, H3, H4. subst r0. cells. auto. }
  destruct Hfacts as (F1 & F2 & F3 & F4 & F5 & F6).
  destruct Hs' as (_ & Hi & Hp & _).
  repeat split; auto.
  - rewrite Hi. unfold interval_of. now rewrite F4.
  - rewrite Hp. unfold pair_interval_of. now rewrite F1.
Qed.

Lemma leaving_paired_mode_witness :
  settled sample (dispatch sample false ClickTraining (mounted 3 300 25)) /\
  isAngleMode (dispatch sample false ClickTraining (mounted 3 300 25)) = true /\
  isTraining
    (dispatch sample false ClickAngleMode
       (dispatch sample false ClickTraining (mounted 3 300 25))) = false.
Proof.
  assert (H : settled sample
                (dispatch sample false ClickTraining (mounted 3 300 25)))
    by (apply dispatch_settled, mounted_settled).
  split; [exact H|]. split; [vm_compute; reflexivity|].
  now destruct (leaving_paired_mode sample false _ H
                  ltac:(vm_compute; reflexivity)) as (_ & H2 & _).
Defined.

(** X14: a tick of the pair interval in a settled state moves the pair
    cursor on by exactly two words and keeps playing, the position
    following it, while the next index is inside the sequence; otherwise
    it clears the interval, pauses pair playback and leaves the pair
    position where it is. *)
Theorem pair_interval_tick
        (words : list string) (isPeripheral : bool) (st : App) :
  settled words st -> pairTimerRef st <> None ->
  let st' := dispatch words isPeripheral PairIntervalFires st in
  (pairPos st + 2 < List.length words ->
   pairPos st' = pairPos st + 2 /\ isPairPlaying st' = true /\
   pairTimerRef st' = Some (Pacing.msPerPair (wpm st)) /\
   position st' = leftIndex st') /\
  (List.length words <= pairPos st + 2 ->
   pairPos st' = pairPos st /\ isPairPlaying st' = false /\
   pairTimerRef st' = None /\ position st' = position st).
Proof.
  intros Hst Ht st'.
  pose proof (dispatch_settled words isPeripheral PairIntervalFires st Hst)
    as Hs'. fold st' in Hs'.
  destruct Hst as (Hm & Hi & Hp & Hr & Hsync).
  assert (Hon : isAngleMode st = true /\ isPairPlaying st = true).
  { rewrite Hp in Ht. unfold pair_interval_of in Ht.
    destruct (isAngleMode st), (isPairPlaying st); cbn in Ht; auto; congruence. }
  destruct Hon as [Ha Hpp].
  assert (Hr0 : handle words isPeripheral PairIntervalFires st
                = pairTick words st).
  { cbn [handle]. destruct (pairTimerRef st); [reflexivity | congruence]. }
  assert (Hmode : isAngleMode (pairTick words st) = isAngleMode st).
  { unfold pairTick.
    destruct (List.length words <=? pairPos st + 2); reflexivity. }
  assert (Hcells : isAngleMode st' = true /\
                   isPairPlaying st' = isPairPlaying (pairTick words st) /\
                   pairPos st' = pairPos (pairTick words st) /\
                   wpm st' = wpm st).
  { subst st'. unfold dispatch. rewrite Hr0.
    rewrite commit_isAngleMode, commit_wpm, Hmode.
    destruct (commit_same_mode words 4 st (pairTick words st))
      as (_ & K2 & _ & K4); [now rewrite Hmode|].
    repeat split; auto.
    unfold pairTick. destruct (List.length words <=? pairPos st + 2); reflexivity. }
  destruct Hcells as (C1 & C2 & C3 & C4).
  destruct Hs' as (_ & _ & Hp' & _ & Hsync').
  destruct (Hsync' C1) as (_ & Hposn').
  revert C2 C3. unfold pairTick.
  destruct (Nat.leb_spec (List.length words) (pairPos st + 2)) as [Hend|Hin];
    cells; intros C2 C3; (split; [intros Hcase | intros Hcase]); try lia.
  - split; [exact C3|]. split; [exact C2|]. split.
    + rewrite Hp'. unfold pair_interval_of. now rewrite C2, andb_false_r.
    + destruct (Hsync Ha) as (_ & Hposn). rewrite Hposn', Hposn.
      unfold leftIndex. now rewrite C3.
  - rewrite Hpp in C2.
    split; [exact C3|]. split; [exact C2|]. split.
    + rewrite Hp'. unfold pair_interval_of. now rewrite C1, C2, C4.
    + rewrite Hposn'. unfold leftIndex. rewrite C3. lia.
Qed.

Lemma pair_interval_tick_witness :
  let st := run sample false [ClickAngleMode; ClickStartPause]
                (mounted 0 300 25) in
  settled sample st /\ pairTimerRef st <> None /\
  pairPos (dispatch sample false PairIntervalFires st) = 2.
Proof.
  cbv zeta.
  assert (H : settled sample
                (run sample false [ClickAngleMode; ClickStartPause]
                   (mounted 0 300 25)))
    by (apply run_settled, mounted_settled).
  assert (Ht : pairTimerRef
                 (run sample false [ClickAngleMode; ClickStartPause]
                    (mounted 0 300 25)) <> None)
    by (vm_compute; discriminate).
  split; [exact H|]. split; [exact Ht|].
  destruct (pair_interval_tick sample false _ H Ht) as (Hin & _).
  destruct (Hin ltac:(vm_compute; lia)) as (H1 & _).
  rewrite H1. vm_compute. reflexivity.
Defined.

(** X15: in a settled state in Linear mode with the position inside the
    sequence, the right arrow pauses playback, clears the interval and
    moves to the next chunk start, held at the last word; the left arrow
    pauses likewise and moves to the previous chunk start.  The right
    arrow never moves backward and moves forward unless the position is
    the last word; the left arrow moves backward unless the position
    is 0. *)
Theorem linear_arrow_keys
        (words : list string) (isPeripheral : bool) (st : App) :
  settled words st -> isAngleMode st = false ->
  position st < List.length words ->
  let right := dispatch words isPeripheral (KeyDown ArrowRight) st in
  let left := dispatch words isPeripheral (KeyDown ArrowLeft) st in
  (isPlaying right = false /\ intervalRef right = None /\
   position right
   = Nat.min (Chunk.getNextChunkStart words (charLimit st) (position st))
       (List.length words - 1) /\
   position st <= position right < List.length words /\
   (position st + 1 < List.length words -> position st < position right)) /\
  (isPlaying left = false /\ intervalRef left = None /\
   Chunk.getPrevChunkStart words (charLimit st) (position st)
   = Some (position left) /\
   position left <= position st /\
   (0 < position st -> position left < position st)).
Proof.
  intros Hst Ha Hpos right left.
  assert (Hlen : (List.length words =? 0) = false)
    by (apply Nat.eqb_neq; lia).
  assert (Hkey : forall e r0,
             handle words isPeripheral (KeyDown e) st = r0 ->
             isAngleMode r0 = false -> isPlaying r0 = false ->
             let st' := dispatch words isPeripheral (KeyDown e) st in
             isPlaying st' = false /\ intervalRef st' = None /\
             position st' = position r0).
  { intros e r0 Hr0 Hra Hrp st'.
    pose proof (dispatch_settled words isPeripheral (KeyDown e) st Hst) as Hs'.
    fold st' in Hs'. destruct Hs' as (_ & Hi & _).
    assert (Hp : isPlaying st' = false).
    { subst st'. unfold dispatch. rewrite Hr0.
      destruct (commit_same_mode words 4 st r0) as (K1 & _); [congruence|].
      now rewrite K1. }
    split; [exact Hp|]. split.
    - rewrite Hi. unfold interval_of. now rewrite Hp.
    - subst st'. unfold dispatch. rewrite Hr0.
      now apply commit_position_linear. }
  split.
  - destruct (Hkey ArrowRight _ eq_refl) as (H1 & H2 & H3).
    { cbn [handle]. unfold onKey. rewrite Hlen, Ha. unfold jumpToPosition.
      cells. exact Ha. }
    { cbn [handle]. unfold onKey. rewrite Hlen, Ha. unfold jumpToPosition.
      cells. reflexivity. }
    fold right in H1, H2, H3.
    assert (H4 : position right
                 = Nat.min (Chunk.getNextChunkStart words (charLimit st)
                              (position st)) (List.length words - 1)).
    { rewrite H3. cbn [handle]. unfold onKey. rewrite Hlen, Ha.
      unfold jumpToPosition. cells. lia. }
    destruct (getNextChunkStart_spec words (charLimit st) (position st) _
                Hpos eq_refl) as (Hn1 & Hn2 & _).
    repeat split; auto; lia.
  - destruct (getPrevChunkStart_le words (charLimit st) (position st)
                ltac:(lia)) as (prev & Hprev & Hle).
    destruct (Hkey ArrowLeft
                (st |> setIsPlaying false |> jumpToPosition words prev))
      as (H1 & H2 & H3).
    { cbn [handle]. unfold onKey. now rewrite Hlen, Ha, Hprev. }
    { unfold jumpToPosition. cells. exact Ha. }
    { unfold jumpToPosition. cells. reflexivity. }
    fold left in H1, H2, H3.
    assert (H4 : position left = prev).
    { rewrite H3. unfold jumpToPosition. cells. lia. }
    rewrite H4. repeat split; auto; lia.
Qed.

Lemma linear_arrow_keys_witness :
  settled sample (mounted 2 300 10) /\
  position (dispatch sample false (KeyDown ArrowRight) (mounted 2 300 10)) = 4 /\
  position (dispatch sample false (KeyDown ArrowLeft) (mounted 2 300 10)) = 0.
Proof.
  split; [apply mounted_settled|].
  destruct (linear_arrow_keys sample false (mounted 2 300 10)
              (mounted_settled sample 2 300 10) eq_refl ltac:(cbn; lia))
    as ((_ & _ & H3 & _) & (_ & _ & H6 & _)).
  split; [rewrite H3; vm_compute; reflexivity|].
  remember (position (dispatch sample false (KeyDown ArrowLeft)
                        (mounted 2 300 10))) as x eqn:Hx.
  clear Hx. vm_compute in H6. congruence.
Defined.

(** X16: switching Training on from a settled state leaves Training on in
    Paired mode with linear playback paused and its interval cleared.
    From Paired mode the pair cursor then plays from where it is, at the
    period of the rate; from Linear mode the pair position is the even
    index at or below the position and pair playback is left paused. *)
Theorem switching_training_on
        (words : list string) (isPeripheral : bool) (st : App) :
  settled words st -> isTraining st = false ->
  let st' := dispatch words isPeripheral ClickTraining st in
  isTraining st' = true /\ isAngleMode st' = true /\
  isPlaying st' = false /\ intervalRef st' = None /\
  (isAngleMode st = true ->
   isPairPlaying st' = true /\ pairPos st' = pairPos st /\
   pairTimerRef st' = Some (Pacing.msPerPair (wpm st))) /\
  (isAngleMode st = false ->
   isPairPlaying st' = false /\
   pairPos st' = position st - (position st) mod 2 /\
   pairTimerRef st' = None).
Proof.
  intros Hst Ht st'.
  pose proof (dispatch_settled words isPeripheral ClickTraining st Hst) as Hs'.
  fold st' in Hs'. destruct Hs' as ((_ & Hm') & Hi' & Hp' & _).
  assert (Hr0 : forall a, isAngleMode st = a ->
            let r0 := handle words isPeripheral ClickTraining st in
            isAngleMode r0 = true /\ isTraining r0 = true /\
            isPairPlaying r0 = true /\ pairPos r0 = pairPos st /\
            wpm r0 = wpm st /\ position r0 = position st /\
            positionRef r0 = positionRef st).
  { intros a Ea. cbn [handle]. unfold toggleTraining. rewrite Ht, Ea.
    destruct a; cells; rewrite ?Ea; repeat split; reflexivity. }
  assert (Hw : wpm st' = wpm st).
  { subst st'. unfold dispatch. rewrite commit_wpm.
    now destruct (Hr0 _ eq_refl) as (_ & _ & _ & _ & H & _). }
  assert (Ha' : isAngleMode st' = true).
  { subst st'. unfold dispatch. rewrite commit_isAngleMode.
    now destruct (Hr0 _ eq_refl) as (H & _). }
  assert (Hcases :
            isTraining st' = true /\
            (isAngleMode st = true ->
             isPairPlaying st' = true /\ pairPos st' = pairPos st) /\
            (isAngleMode st = false ->
             isPairPlaying st' = false /\
             pairPos st' = position st - (position st) mod 2)).
  { subst st'. unfold dispatch.
    destruct (isAngleMode st) eqn:Ea.
    - destruct (Hr0 true eq_refl) as (R1 & R2 & R3 & R4 & _).
      destruct (commit_same_mode words 4 st
                  (handle words isPeripheral ClickTraining st))
        as (_ & K2 & K3 & K4); [congruence|].
      split; [congruence|]. split; [intros _; split; congruence|].
      intros H; discriminate.
    - destruct (Hr0 false eq_refl) as (R1 & R2 & R3 & R4 & _ & R6 & R7).
      rewrite commit_S.
      destruct (pass_enter_paired words st
                  (handle words isPeripheral ClickTraining st) Ea R1)
        as (P1 & P2 & P3).
      { destruct Hst as (_ & _ & _ & Hr & _). congruence. }
      destruct (commit_same_mode words 3
                  (handle words isPeripheral ClickTraining st)
                  (pass words st (handle words isPeripheral ClickTraining st)
                     (handle words isPeripheral ClickTraining st)))
        as (_ & K2 & K3 & K4); [symmetry; apply pass_isAngleMode|].
      split; [congruence|]. split; [intros H; discriminate|].
      intros _. split; congruence. }
  destruct Hcases as (C1 & C2 & C3).
  split; [exact C1|]. split; [exact Ha'|].
  split; [now apply Hm'|]. split.
  { rewrite Hi'. unfold interval_of. now rewrite (Hm' Ha'). }
  split.
  - intros Ea. destruct (C2 Ea) as [Hpp Hpos]. repeat split; auto.
    rewrite Hp'. unfold pair_interval_of. now rewrite Ha', Hpp, Hw.
  - intros Ea. destruct (C3 Ea) as [Hpp Hpos]. repeat split; auto.
    rewrite Hp'. unfold pair_interval_of. now rewrite Hpp, andb_false_r.
Qed.

Lemma switching_training_on_witness :
  settled sample (mounted 3 300 25) /\
  isTraining (mounted 3 300 25) = false /\
  isPairPlaying (dispatch sample false ClickTraining (mounted 3 300 25))
  = false.
Proof.
  split; [apply mounted_settled|]. split; [reflexivity|].
  destruct (switching_training_on sample false (mounted 3 300 25)
              (mounted_settled sample 3 300 25) eq_refl)
    as (_ & _ & _ & _ & _ & H).
  now destruct (H eq_refl) as (H1 & _).
Defined.

Section TrainingGap.

Variable words : list string.
Variable isPeripheral : bool.

Lemma pass_training_gap p r c :
  (isTraining c = true -> (TRAIN_MIN <= pairGap c <= TRAIN_MAX)%Z) ->
  isTraining (pass words p r c) = true ->
  (TRAIN_MIN <= pairGap (pass words p r c) <= TRAIN_MAX)%Z.
Proof.
  apply (pass_preserves words
           (fun c => isTraining c = true ->
                     (TRAIN_MIN <= pairGap c <= TRAIN_MAX)%Z));
    clear c; intros c Hc.
  - unfold positionRefEffect. cells. exact Hc.
  - unfold angleModeEffect. destruct (isAngleMode r); cells;
      [exact Hc | discriminate].
  - unfold pairTimerEffect, startPairTimer.
    destruct (isAngleMode r), (isPairPlaying r); cells; exact Hc.
  - unfold syncEffect, jumpToPosition. destruct (isAngleMode r); cells;
      [|exact Hc].
    destruct (lastSyncedPosRef c =? Z.of_nat (leftIndex r))%Z; cells; exact Hc.
  - unfold trainingEffect.
    destruct (negb (isAngleMode r && isTraining r)); cells; [exact Hc|].
    destruct (prevPairPosRef c <? pairPos r); cells; [|exact Hc].
    destruct (TRAIN_EVERY_PAIRS <=? pairsSinceStepRef c + 1); cells;
      [|exact Hc].
    intros _. apply trainingGapStep_bounds.
  - unfold autoplayEffect.
    destruct (negb (isPlaying r) || (List.length words =? 0)); cells; exact Hc.
Qed.

Lemma handle_training_gap ev st :
  ev <> ClickGapLess -> ev <> ClickGapMore ->
  (isTraining st = true -> (TRAIN_MIN <= pairGap st <= TRAIN_MAX)%Z) ->
  isTraining (handle words isPeripheral ev st) = true ->
  (TRAIN_MIN <= pairGap (handle words isPeripheral ev st) <= TRAIN_MAX)%Z.
Proof.
  intros H1 H2 Hst.
  destruct ev as [e| | | | | | | | | | |newPos| |]; [destruct e|..];
    try congruence;
    unfold handle, onKey, handleStartPause, togglePlay, toggleTraining,
      handleSeek, tick, pairTick, jumpToPosition, resetPosition;
    repeat match goal with
           | |- context [match ?x with Some _ => _ | None => _ end] =>
               destruct x
           | |- context [if ?x then _ else _] => destruct x
           end; cells; auto; try discriminate;
    intros _; unfold TRAIN_MIN, TRAIN_MAX; lia.
Qed.

Lemma run_training_gap evs st :
  Forall (fun ev => ev <> ClickGapLess /\ ev <> ClickGapMore) evs ->
  (isTraining st = true -> (TRAIN_MIN <= pairGap st <= TRAIN_MAX)%Z) ->
  isTraining (run words isPeripheral evs st) = true ->
  (TRAIN_MIN <= pairGap (run words isPeripheral evs st) <= TRAIN_MAX)%Z.
Proof.
  intros Hall. revert st.
  induction Hall as [|ev evs [H1 H2] _ IH]; intros st Hst;
    cbn [run fold_left]; [exact Hst|].
  apply IH. unfold dispatch.
  apply (commit_preserves words
           (fun c => isTraining c = true ->
                     (TRAIN_MIN <= pairGap c <= TRAIN_MAX)%Z)).
  - intros p r Hr. now apply pass_training_gap.
  - now apply handle_training_gap.
Qed.

End TrainingGap.

(** X17: in a settled state in Linear mode a seek pauses playback, clears
    the interval and sets the position to the target held within the
    sequence (to the even index at or below the target in the peripheral
    variant); the pair position is not touched. *)
Theorem seek_clamps_and_pauses
        (words : list string) (isPeripheral : bool) (st : App) (newPos : nat) :
  settled words st -> isAngleMode st = false ->
  let st' := dispatch words isPeripheral (Seek newPos) st in
  isPlaying st' = false /\ intervalRef st' = None /\
  position st'
  = Nat.min (if isPeripheral then newPos - newPos mod 2 else newPos)
      (List.length words - 1) /\
  pairPos st' = pairPos st.
Proof.
  intros Hst Ha st'.
  pose proof (dispatch_settled words isPeripheral (Seek newPos) st Hst) as Hs'.
  fold st' in Hs'. destruct Hs' as (_ & Hi & _).
  set (r0 := handle words isPeripheral (Seek newPos) st).
  assert (Hr0 : isAngleMode r0 = false /\ isPlaying r0 = false /\
                pairPos r0 = pairPos st /\
                position r0
                = Nat.min (if isPeripheral then newPos - newPos mod 2
                           else newPos) (List.length words - 1)).
  { subst r0. cbn [handle]. rewrite Ha. unfold handleSeek, jumpToPosition.
    destruct isPeripheral; cells; rewrite ?Ha; repeat split; lia. }
  destruct Hr0 as (R1 & R2 & R3 & R4).
  destruct (commit_same_mode words 4 st r0) as (K1 & _ & _ & K4);
    [congruence|].
  assert (Hp : isPlaying st' = false) by (subst st'; unfold dispatch; fold r0; congruence).
  split; [exact Hp|]. split.
  { rewrite Hi. unfold interval_of. now rewrite Hp. }
  split.
  - subst st'. unfold dispatch. fold r0.
    now rewrite (commit_position_linear words 4 st r0 R1).
  - subst st'. unfold dispatch. fold r0. congruence.
Qed.

Lemma seek_clamps_and_pauses_witness :
  settled sample (mounted 0 300 25) /\
  position (dispatch sample false (Seek 9) (mounted 0 300 25)) = 4.
Proof.
  split; [apply mounted_settled|].
  destruct (seek_clamps_and_pauses sample false (mounted 0 300 25) 9
              (mounted_settled sample 0 300 25) eq_refl) as (_ & _ & H & _).
  rewrite H. reflexivity.
Defined.

(** X18: as long as the two gap buttons are not used, the gap is within
    [10, 550] in every state of a session in which Training is on. *)
Theorem training_gap_within_bounds
        (words : list string) (isPeripheral : bool) (evs : list Event)
        (pos : nat) (rate : Z) (limit : nat) :
  Forall (fun ev => ev <> ClickGapLess /\ ev <> ClickGapMore) evs ->
  let st := run words isPeripheral evs (mounted pos rate limit) in
  isTraining st = true -> (TRAIN_MIN <= pairGap st <= TRAIN_MAX)%Z.
Proof.
  intros Hall st. apply run_training_gap; [exact Hall|].
  cbn. discriminate.
Qed.

Lemma training_gap_within_bounds_witness :
  Forall (fun ev => ev <> ClickGapLess /\ ev <> ClickGapMore)
    [ClickTraining; ClickStartPause; PairIntervalFires] /\
  (TRAIN_MIN
   <= pairGap (run sample false
                 [ClickTraining; ClickStartPause; PairIntervalFires]
                 (mounted 0 300 25)) <= TRAIN_MAX)%Z.
Proof.
  assert (H : Forall (fun ev => ev <> ClickGapLess /\ ev <> ClickGapMore)
                [ClickTraining; ClickStartPause; PairIntervalFires])
    by (repeat constructor; discriminate).
  split; [exact H|].
  apply (training_gap_within_bounds sample false _ 0 300 25 H).
  vm_compute. reflexivity.
Defined.

(** X19: linear playback tiles the text: the chunk shown at a position
    inside the sequence is made of the words from the position up to the
    index the tick computes; the tick moves the position to that index
    when it is inside the sequence, and otherwise that index is the
    length, so the chunk shown last runs to the end of the text. *)
Theorem playback_tiles_the_text (words : list string) (st : App) :
  position st < List.length words ->
  let n := tickNext words false (charLimit st) (position st) in
  Chunk.getChunkText words (charLimit st) (position st)
  = String.concat " " (slice words (position st) n) /\
  position st < n <= List.length words /\
  (n < List.length words -> position (tick words false st) = n) /\
  (List.length words <= n ->
   n = List.length words /\ position (tick words false st) = position st).
Proof.
  intros Hpos n.
  assert (Hn : n = Chunk.getNextChunkStart words (charLimit st) (position st))
    by reflexivity.
  destruct (getNextChunkStart_spec words (charLimit st) (position st) n Hpos
              (eq_sym Hn)) as (H1 & H2 & _).
  split; [rewrite Hn; now apply getChunkText_inside|].
  split; [lia|]. unfold tick. fold n.
  destruct (Nat.leb_spec (List.length words) n); cells; split; intros;
    try lia; try (split; [lia | reflexivity]); reflexivity.
Qed.

Lemma playback_tiles_the_text_witness :
  position (mounted 2 300 10) < List.length sample /\
  Chunk.getChunkText sample 10 2 = "brown fox"%string /\
  position (tick sample false (mounted 2 300 10)) = 4.
Proof.
  split; [cbn; lia|].
  destruct (playback_tiles_the_text sample (mounted 2 300 10) ltac:(cbn; lia))
    as (H1 & _ & H3 & _).
  split; [exact H1 | apply H3; vm_compute; lia].
Defined.

Section Settling.

Variable words : list string.
Variable isPeripheral : bool.

(** The direction changes only in a step of the gap, which records the
    pair position it has counted. *)
Lemma pass_dir_changed p r :
  trainingDir (pass words p r r) <> trainingDir r ->
  prevPairPosRef (pass words p r r) = pairPos r.
Proof.
  unfold pass.
  match goal with
  | |- context [when ?b6 (autoplayEffect words r) (when ?b5 (trainingEffect r) ?x)] =>
      set (flag6 := b6); set (flag5 := b5); set (c4 := x)
  end.
  assert (H4 : trainingDir c4 = trainingDir r).
  { subst c4.
    do 4 (apply (when_preserves (fun c => trainingDir c = trainingDir r));
          [intros c' H; framed H|]).
    reflexivity. }
  assert (H6 : forall c, trainingDir (when flag6 (autoplayEffect words r) c)
                         = trainingDir c /\
                         prevPairPosRef (when flag6 (autoplayEffect words r) c)
                         = prevPairPosRef c).
  { intros c. unfold when. destruct flag6; split; try reflexivity; frame. }
  destruct (H6 (when flag5 (trainingEffect r) c4)) as [-> ->].
  unfold when. destruct flag5; [|congruence].
  unfold trainingEffect, trainingGapStep.
  repeat match goal with
         | |- context [if ?b then _ else _] => destruct b
         end; cells; congruence.
Qed.

(** Once the pair position is counted, a pass without a change of mode,
    of pair position or of Training leaves the direction alone. *)
Lemma pass_dir_same p r :
  isAngleMode p = isAngleMode r -> pairPos p = pairPos r ->
  isTraining p = isTraining r ->
  (trainingDir p <> trainingDir r -> pairPos r <= prevPairPosRef r) ->
  trainingDir (pass words p r r) = trainingDir r.
Proof.
  intros Ea Epos Et Hprev. unfold pass.
  apply (when_preserves (fun c => trainingDir c = trainingDir r));
    [intros c' H; framed H|].
  match goal with
  | |- trainingDir (when ?b5 (trainingEffect r) ?x) = _ =>
      set (flag5 := b5); set (c4 := x)
  end.
  assert (H4 : trainingDir c4 = trainingDir r /\
               prevPairPosRef c4 = prevPairPosRef r).
  { subst c4.
    apply (when_preserves
             (fun c => trainingDir c = trainingDir r /\
                       prevPairPosRef c = prevPairPosRef r));
      [intros c' [H1 H2]; split; [framed H1 | framed H2]|].
    apply (when_preserves
             (fun c => trainingDir c = trainingDir r /\
                       prevPairPosRef c = prevPairPosRef r));
      [intros c' [H1 H2]; split; [framed H1 | framed H2]|].
    rewrite Ea, Bool.eqb_reflx. cbn [negb when].
    apply (when_preserves
             (fun c => trainingDir c = trainingDir r /\
                       prevPairPosRef c = prevPairPosRef r));
      [intros c' [H1 H2]; split; [framed H1 | framed H2]|].
    auto. }
  destruct H4 as [Hd Hp].
  destruct flag5 eqn:Hflag; cbn [when]; [|exact Hd].
  assert (Hne : trainingDir p <> trainingDir r).
  { subst flag5. rewrite Epos, Ea, Et, Nat.eqb_refl, !Bool.eqb_reflx in Hflag.
    cbn [negb orb] in Hflag. now apply differs_Z. }
  specialize (Hprev Hne).
  unfold trainingEffect.
  destruct (negb (isAngleMode r && isTraining r)); cells; [exact Hd|].
  destruct (Nat.ltb_spec (prevPairPosRef c4) (pairPos r)); [lia | exact Hd].
Qed.

(** The fourth pass after a command changes nothing. *)
Lemma fourth_pass_identity ev st :
  let r0 := handle words isPeripheral ev st in
  let r1 := pass words st r0 r0 in
  let r2 := pass words r0 r1 r1 in
  let r3 := pass words r1 r2 r2 in
  pass words r2 r3 r3 = r3.
Proof.
  intros r0 r1 r2 r3.
  assert (A1 : isAngleMode r0 = isAngleMode r1)
    by (symmetry; apply pass_isAngleMode).
  assert (A2 : isAngleMode r1 = isAngleMode r2)
    by (symmetry; apply pass_isAngleMode).
  destruct (pass_same_mode words r0 r1 r1 A1) as (_ & _ & T2 & P2).
  fold r2 in T2, P2.
  destruct (pass_same_mode words r1 r2 r2 A2) as (Q1 & Q2 & Q3 & Q4).
  fold r3 in Q1, Q2, Q3, Q4.
  assert (Hpos : position r3 = position r2).
  { apply pass_position_settled; [exact A2|]. unfold leftIndex. now rewrite P2. }
  assert (Hdir : trainingDir r3 = trainingDir r2).
  { apply pass_dir_same; try congruence.
    intros Hne. pose proof (pass_dir_changed r0 r1) as Hp. fold r2 in Hp.
    rewrite Hp; [lia | congruence]. }
  assert (W : wpm r3 = wpm r2) by apply pass_wpm.
  assert (L : charLimit r3 = charLimit r2) by apply pass_charLimit.
  assert (A3 : isAngleMode r3 = isAngleMode r2) by apply pass_isAngleMode.
  unfold pass.
  rewrite Hpos, Hdir, Q1, Q2, Q3, Q4, W, L, A3.
  replace (leftIndex r3) with (leftIndex r2)
    by (unfold leftIndex; now rewrite Q4).
  now rewrite !Nat.eqb_refl, !Z.eqb_refl, !Bool.eqb_reflx.
Qed.

End Settling.

(** X20: the cycle of renders and effects that follows a command comes to
    rest: the fourth pass changes nothing, and neither does any pass
    after it, so the state a command leads to is the state after three
    passes. *)
Theorem effects_settle_in_three_passes
        (words : list string) (isPeripheral : bool) (ev : Event) (st : App)
        (k : nat) :
  commit words (4 + k) st (handle words isPeripheral ev st)
  = dispatch words isPeripheral ev st /\
  dispatch words isPeripheral ev st
  = commit words 3 st (handle words isPeripheral ev st).
Proof.
  pose proof (fourth_pass_identity words isPeripheral ev st) as H4.
  cbv zeta in H4. unfold dispatch.
  change (4 + k) with (S (S (S (S k)))).
  rewrite !commit_S. cbn [commit]. rewrite !H4. split; [|reflexivity].
  apply commit_same.
Qed.

(** ** The training oscillator in a session *)

Section TrainingSteps.

Variable words : list string.
Variable isPeripheral : bool.














End TrainingSteps.



